(** * LureNotifier: lure detection and notification over a reporting hierarchy

    Shallow embedding of [lastname_firstInitial_challenge.py] (class
    [LureNotifier]) and the properties of its two construction-time
    helpers and its two queries.

    Conventions of the embedding
    - a Python [str] is a [string]; its characters are read as the code
      points below 256, on which [str.lower] is the map [lower_char];
    - a Python [dict] that the code iterates over, or returns, is the list
      of its items in insertion order ([pydict]); a [dict] that is only
      looked up and updated is a [gmap];
    - a Python [set] of user ids is a [gset string]; [list(s)] of a set is
      [elements s] (Python leaves that order unspecified);
    - the recursion of [gather_subordinates] carries a fuel argument, the
      number of nested calls that the interpreter still allows (what its
      recursion limit leaves): [None] stands for a recursion that does not
      return a value, which in Python ends in [RecursionError]. *)

From stdpp Require Import base option list relations gmap strings pretty.
From Stdlib Require Import Ascii.

Set Warnings "-clear-no-such-hyp".

Local Open Scope string_scope.
Local Open Scope list_scope.
Local Open Scope nat_scope.

(** ** Python dictionaries as insertion-ordered item lists *)

Module PyDict.

Definition pydict (V : Type) : Type := list (string * V).

(** [d.get(k)] : the value of the first item whose key is [k]. *)
Fixpoint dict_get {V : Type} (k : string) (d : pydict V) : option V :=
  match d with
  | [] => None
  | (k', v) :: d' => if decide (k' = k) then Some v else dict_get k d'
  end.

(** [d[k] = v] : an existing key keeps its position, a new key goes last. *)
Fixpoint dict_set {V : Type} (k : string) (v : V) (d : pydict V) : pydict V :=
  match d with
  | [] => [(k, v)]
  | (k', v') :: d' =>
      if decide (k' = k) then (k, v) :: d' else (k', v') :: dict_set k v d'
  end.

Definition keys {V : Type} (d : pydict V) : list string := d.*1.

End PyDict.
Export PyDict.

(** ** Strings: [str.lower] and the substring test [t in s] *)

Module PyStr.

(** [str.lower] on one code point below 256: A-Z and the Latin-1 capitals
    (0xC0-0xDE except the multiplication sign 0xD7) move up by 32. *)
Definition lower_char (c : ascii) : ascii :=
  let n := nat_of_ascii c in
  if ((65 <=? n) && (n <=? 90)) ||
     ((192 <=? n) && (n <=? 222) && negb (n =? 215))
  then ascii_of_nat (n + 32) else c.

Fixpoint lower (s : string) : string :=
  match s with
  | EmptyString => EmptyString
  | String c s' => String (lower_char c) (lower s')
  end.

Fixpoint startswith (p s : string) : bool :=
  match p, s with
  | EmptyString, _ => true
  | String _ _, EmptyString => false
  | String a p', String b s' => if decide (a = b) then startswith p' s' else false
  end.

(** [str_contains t s] is Python's [t in s]. *)
Fixpoint str_contains (t s : string) : bool :=
  startswith t s ||
  match s with
  | EmptyString => false
  | String _ s' => str_contains t s'
  end.

(** The mathematical reading of [t in s]. *)
Definition substring_of (t s : string) : Prop :=
  ∃ pre post : string, s = pre +:+ t +:+ post.

End PyStr.
Export PyStr.

(** ** The class *)

Abbreviation user_set := (gset string).
Abbreviation lure := (string * list string)%type.

Record LureNotifier : Type := mkLureNotifier {
  TARGET_DOMAINS : list string;
  SUBSCRIPTIONS : pydict (list string);
  USER_TO_MANAGER_DICT : pydict string;
  USER_REPORTS_CHAIN_MAP : gmap string user_set;
  TERM_NOTIFICATIONS_MAP : gmap string user_set
}.

Definition TERMS : list string :=
  ["cisco"; "gmail"; "login"; "mail"; "paying"; "paypal"; ".gov"].

(** *** [_build_user_reports_chain_map] *)

(** The [for user, manager in self.USER_TO_MANAGER_DICT.items()] loop of
    [gather_subordinates]; [rec] is the recursive call, which threads the
    memo table [user_hierarchy_map]. *)
Fixpoint gather_loop
    (rec : string → gmap string user_set → option (user_set * gmap string user_set))
    (user_id : string) (items : pydict string)
    (subordinates : user_set) (user_hierarchy_map : gmap string user_set)
  : option (user_set * gmap string user_set) :=
  match items with
  | [] => Some (subordinates, user_hierarchy_map)
  | (user, manager) :: rest =>
      if decide (manager = user_id) then
        match rec user user_hierarchy_map with
        | None => None
        | Some (below, user_hierarchy_map') =>
            gather_loop rec user_id rest
              (subordinates ∪ {[user]} ∪ below) user_hierarchy_map'
        end
      else gather_loop rec user_id rest subordinates user_hierarchy_map
  end.

Fixpoint gather_subordinates (fuel : nat) (hierarchy : pydict string)
    (user_id : string) (user_hierarchy_map : gmap string user_set)
  : option (user_set * gmap string user_set) :=
  match fuel with
  | 0 => None
  | S fuel' =>
      match user_hierarchy_map !! user_id with
      | Some known => Some (known, user_hierarchy_map)
      | None =>
          match gather_loop (gather_subordinates fuel' hierarchy)
                  user_id hierarchy ∅ user_hierarchy_map with
          | None => None
          | Some (subordinates, user_hierarchy_map') =>
              Some (subordinates, <[user_id := subordinates]> user_hierarchy_map')
          end
      end
  end.

(** The [for user in self.USER_TO_MANAGER_DICT] loop: keys only. *)
Fixpoint build_loop (fuel : nat) (hierarchy : pydict string)
    (users : list string) (user_hierarchy_map : gmap string user_set)
  : option (gmap string user_set) :=
  match users with
  | [] => Some user_hierarchy_map
  | user :: rest =>
      match gather_subordinates fuel hierarchy user user_hierarchy_map with
      | None => None
      | Some (_, user_hierarchy_map') =>
          build_loop fuel hierarchy rest user_hierarchy_map'
      end
  end.

Definition _build_user_reports_chain_map (fuel : nat) (hierarchy : pydict string)
  : option (gmap string user_set) :=
  build_loop fuel hierarchy (keys hierarchy) ∅.

(** *** [_precompute_notifications] *)

(** [m.get(k, set())] *)
Definition get_or_empty (m : gmap string user_set) (k : string) : user_set :=
  default ∅ (m !! k).

(** One pass of the inner loop body for the pair [(user_id, term)]. *)
Definition add_notification (user_hierarchy_map : gmap string user_set)
    (user_id : string) (term_notifications : gmap string user_set) (term : string)
  : gmap string user_set :=
  let term_notifications :=
    match term_notifications !! term with
    | None => <[term := ∅]> term_notifications
    | Some _ => term_notifications
    end in
  <[term := get_or_empty term_notifications term ∪ {[user_id]}
             ∪ get_or_empty user_hierarchy_map user_id]> term_notifications.

Definition _precompute_notifications (subscriptions : pydict (list string))
    (user_hierarchy_map : gmap string user_set) : gmap string user_set :=
  foldl (λ term_notifications '(user_id, terms),
           foldl (add_notification user_hierarchy_map user_id)
                 term_notifications terms)
        ∅ subscriptions.

(** *** [__init__] *)

Definition init (fuel : nat) (domains : list string)
    (subscriptions : pydict (list string)) (team_hierarchy : pydict string)
  : option LureNotifier :=
  match _build_user_reports_chain_map fuel team_hierarchy with
  | None => None
  | Some chain =>
      Some {| TARGET_DOMAINS := domains;
              SUBSCRIPTIONS := subscriptions;
              USER_TO_MANAGER_DICT := team_hierarchy;
              USER_REPORTS_CHAIN_MAP := chain;
              TERM_NOTIFICATIONS_MAP := _precompute_notifications subscriptions chain |}
  end.

(** *** [identify_lures] *)

(** [[term for term in self.TERMS if term in lower_domain]] *)
Definition matched_terms (lower_domain : string) : list string :=
  List.filter (λ term, str_contains term lower_domain) TERMS.

Fixpoint identify_loop (domains : list string) (lures : list lure) : list lure :=
  match domains with
  | [] => lures
  | domain :: rest =>
      let lower_domain := lower domain in
      let matched := matched_terms lower_domain in
      if 2 <=? length matched
      then identify_loop rest (lures ++ [(domain, matched)])
      else identify_loop rest lures
  end.

Definition set_TARGET_DOMAINS (domains : list string) (self : LureNotifier)
  : LureNotifier :=
  {| TARGET_DOMAINS := domains;
     SUBSCRIPTIONS := SUBSCRIPTIONS self;
     USER_TO_MANAGER_DICT := USER_TO_MANAGER_DICT self;
     USER_REPORTS_CHAIN_MAP := USER_REPORTS_CHAIN_MAP self;
     TERM_NOTIFICATIONS_MAP := TERM_NOTIFICATIONS_MAP self |}.

(** A method returns its result and the object after the call. *)
Definition identify_lures (self : LureNotifier) (domains : list string)
  : list lure * LureNotifier :=
  let self := set_TARGET_DOMAINS domains self in
  (identify_loop domains [], self).

(** *** [notify] *)

(** The inner loop: [users_to_notify.update(MAP.get(term, set()))]. *)
Definition users_for (term_map : gmap string user_set) (terms : list string)
  : user_set :=
  foldl (λ users_to_notify term, users_to_notify ∪ get_or_empty term_map term)
        ∅ terms.

Fixpoint notify_loop (term_map : gmap string user_set) (lures : list lure)
    (domain_notifications : pydict (list string)) : pydict (list string) :=
  match lures with
  | [] => domain_notifications
  | (domain, terms) :: rest =>
      let users_to_notify := users_for term_map terms in
      notify_loop term_map rest
        (dict_set domain (elements users_to_notify) domain_notifications)
  end.

Definition notify (self : LureNotifier) (lures : list lure)
  : pydict (list string) * LureNotifier :=
  (notify_loop (TERM_NOTIFICATIONS_MAP self) lures [], self).

(** *** The script's loader step for one subscription line

    [load_user_subscriptions]: create the user's list when missing, then
    append the term. *)
Definition add_subscription (user_id term : string)
    (subscriptions : pydict (list string)) : pydict (list string) :=
  let subscriptions :=
    match dict_get user_id subscriptions with
    | None => dict_set user_id [] subscriptions
    | Some _ => subscriptions
    end in
  dict_set user_id (default [] (dict_get user_id subscriptions) ++ [term])
           subscriptions.

(** ** Specification vocabulary for lure detection *)

(** The test of [identify_lures]: [len(matched_terms) >= 2]. *)
Definition qualifies (domain : string) : bool :=
  2 <=? length (matched_terms (lower domain)).

(** At least two of the vocabulary terms are substrings of the lower-cased
    domain. *)
Definition is_lure (domain : string) : Prop :=
  ∃ t1 t2, t1 ≠ t2 ∧ t1 ∈ TERMS ∧ t2 ∈ TERMS ∧
           substring_of t1 (lower domain) ∧ substring_of t2 (lower domain).

(** ** Specification vocabulary for the hierarchy *)

(** [reports_to h user manager]: the manager map has the item
    [user: manager]. *)
Definition reports_to (hierarchy : pydict string) (user manager : string) : Prop :=
  (user, manager) ∈ hierarchy.

(** [below h w u]: [u] is a direct or transitive manager of [w]. *)
Definition below (hierarchy : pydict string) : relation string :=
  tc (reports_to hierarchy).

(** No user is their own transitive manager. *)
Definition acyclic (hierarchy : pydict string) : Prop :=
  ∀ u, ¬ below hierarchy u u.

(** [subscribes subs u t]: [t] occurs in the term list of [u]. *)
Definition subscribes (subscriptions : pydict (list string))
    (user_id term : string) : Prop :=
  ∃ terms, (user_id, terms) ∈ subscriptions ∧ term ∈ terms.

(** The users that have a manager: the keys of the manager map. *)
Definition key_set (hierarchy : pydict string) : gset string :=
  list_to_set (keys hierarchy).

(** A memo table is right when each entry is the set of users below its key. *)
Definition memo_ok (hierarchy : pydict string) (memo : gmap string user_set) : Prop :=
  ∀ u known, memo !! u = Some known → ∀ w, w ∈ known ↔ below hierarchy w u.

(** What one call of the recursion promises for a right memo table. *)
Definition rec_sound (hierarchy : pydict string)
    (rec : string → gmap string user_set → option (user_set * gmap string user_set))
  : Prop :=
  ∀ w memo subs memo',
    memo_ok hierarchy memo → rec w memo = Some (subs, memo') →
    memo_ok hierarchy memo' ∧ (∀ x, x ∈ subs ↔ below hierarchy x w) ∧
    dom memo ⊆ dom memo' ∧ w ∈ dom memo' ∧
    dom memo' ⊆ dom memo ∪ {[w]} ∪ key_set hierarchy.

(** [notified chain subs t x]: [x] subscribes to [t] or is in the chain
    entry of a subscriber of [t]. *)
Definition notified (chain : gmap string user_set)
    (subscriptions : pydict (list string)) (term x : string) : Prop :=
  ∃ u, subscribes subscriptions u term ∧ (x = u ∨ x ∈ get_or_empty chain u).

(** [_precompute_notifications] started from any table. *)
Definition precompute_from (chain : gmap string user_set)
    (tn : gmap string user_set) (subscriptions : pydict (list string))
  : gmap string user_set :=
  foldl (λ term_notifications '(user_id, terms),
           foldl (add_notification chain user_id) term_notifications terms)
        tn subscriptions.

(** ** Queries as state transformers *)

Inductive query : Type :=
  | Identify (domains : list string)
  | Notify (lures : list lure).

Definition run_query (self : LureNotifier) (q : query) : LureNotifier :=
  match q with
  | Identify domains => (identify_lures self domains).2
  | Notify lures => (notify self lures).2
  end.

Definition run_queries (self : LureNotifier) (qs : list query) : LureNotifier :=
  foldl run_query self qs.

(** [notify(identify_lures(domains))] *)
Definition detect_and_notify (self : LureNotifier) (domains : list string)
  : pydict (list string) * LureNotifier :=
  let '(lures, self) := identify_lures self domains in
  notify self lures.

(** ** The script around the class: loaders and entry point

    The files and [json.loads] stay outside: a JSON-lines file is the list
    of its decoded objects, each the dictionary of its string fields, and
    the domains file is the text that [file.read()] returns. A missing
    field ([KeyError]) is [None]. *)

(** [load_user_subscriptions]: the loop over the decoded lines. *)
Fixpoint subscriptions_loop (entries : list (pydict string))
    (subscriptions : pydict (list string)) : option (pydict (list string)) :=
  match entries with
  | [] => Some subscriptions
  | entry :: rest =>
      match dict_get "id" entry with
      | None => None
      | Some user_id =>
          match dict_get "term" entry with
          | None => None
          | Some term =>
              subscriptions_loop rest (add_subscription user_id term subscriptions)
          end
      end
  end.

Definition load_user_subscriptions (entries : list (pydict string))
  : option (pydict (list string)) :=
  subscriptions_loop entries [].

(** [load_user_to_manager_map]: [hierarchy[user_id] = manager_id] per line. *)
Fixpoint hierarchy_loop (entries : list (pydict string))
    (hierarchy : pydict string) : option (pydict string) :=
  match entries with
  | [] => Some hierarchy
  | entry :: rest =>
      match dict_get "id" entry with
      | None => None
      | Some user_id =>
          match dict_get "reports_to" entry with
          | None => None
          | Some manager_id =>
              hierarchy_loop rest (dict_set user_id manager_id hierarchy)
          end
      end
  end.

Definition load_user_to_manager_map (entries : list (pydict string))
  : option (pydict string) :=
  hierarchy_loop entries [].

(** The line boundaries of [str.splitlines] among the code points below
    256: LF, VT, FF, CR, FS, GS, RS and NEL. *)
Definition is_linebreak (c : ascii) : bool :=
  let n := nat_of_ascii c in
  (n =? 10) || (n =? 11) || (n =? 12) || (n =? 13) ||
  (n =? 28) || (n =? 29) || (n =? 30) || (n =? 133).

(** [splitlines_from after_cr line s]: the lines of [s] when [line] is the
    text read since the last boundary; [after_cr] tells that the last
    character was a CR, whose LF, if it comes next, belongs to the same
    boundary. *)
Fixpoint splitlines_from (after_cr : bool) (line : string) (s : string)
  : list string :=
  match s with
  | EmptyString => if decide (line = "") then [] else [line]
  | String c s' =>
      if after_cr && bool_decide (c = "010"%char) then splitlines_from false line s'
      else if is_linebreak c
      then line :: splitlines_from (bool_decide (c = "013"%char)) "" s'
      else splitlines_from false (line +:+ String c "") s'
  end.

(** [s.splitlines()] *)
Definition splitlines (s : string) : list string := splitlines_from false "" s.

(** [read_domain_list_from_file], on the text of the file. *)
Definition read_domain_list_from_file (text : string) : list string :=
  splitlines text.

(** [test_identify_lures] and [test_notify] act on the script's global
    [notifier]. *)
Definition test_domains : list string :=
  ["paypal-login.appspot.com"; "ciscomail.com"; "cisco.heroku.com"; "apple.com"].

Definition test_identify_lures (notifier : LureNotifier)
  : list lure * LureNotifier :=
  identify_lures notifier test_domains.

Definition test_notify (notifier : LureNotifier)
  : pydict (list string) * LureNotifier :=
  let '(lures, notifier) := test_identify_lures notifier in
  notify notifier lures.

(** The [__main__] block: what it prints, and the notifier it leaves. *)
Definition main (fuel : nat)
    (subscription_entries graph_entries : list (pydict string))
    (domain_text : string)
  : option (pydict (list string) * LureNotifier) :=
  match load_user_subscriptions subscription_entries with
  | None => None
  | Some subscriptions =>
      match load_user_to_manager_map graph_entries with
      | None => None
      | Some team_hierarchy_graph =>
          let domains := read_domain_list_from_file domain_text in
          match init fuel domains subscriptions team_hierarchy_graph with
          | None => None
          | Some notifier =>
              let '(lures, notifier) :=
                identify_lures notifier (TARGET_DOMAINS notifier) in
              Some (test_notify notifier)
          end
      end
  end.

(** *** Specification vocabulary for the loaders *)

(** The two fields a loader reads from a decoded line. *)
Definition entry_fields (second : string) (entry : pydict string)
  : option (string * string) :=
  match dict_get "id" entry, dict_get second entry with
  | Some user_id, Some value => Some (user_id, value)
  | _, _ => None
  end.

(** The values listed for [user_id], in line order. *)
Definition values_of (user_id : string) (pairs : list (string * string))
  : list string :=
  (List.filter (λ p, bool_decide (p.1 = user_id)) pairs).*2.

(** The pairs that the decodable lines give, in line order. *)
Definition decoded (second : string) (entries : list (pydict string))
  : list (string * string) :=
  omap (entry_fields second) entries.

(** A loaded subscription dictionary holds, for each user of the lines read
    so far, the terms of the user in line order. *)
Definition subscriptions_inv (subscriptions : pydict (list string))
    (pairs : list (string * string)) : Prop :=
  NoDup (keys subscriptions) ∧
  ∀ u, dict_get u subscriptions
       = match values_of u pairs with [] => None | ts => Some ts end.

(** A loaded manager dictionary holds, for each user of the lines read so
    far, the manager of the user's last line. *)
Definition hierarchy_inv (hierarchy : pydict string)
    (pairs : list (string * string)) : Prop :=
  NoDup (keys hierarchy) ∧
  ∀ u, dict_get u hierarchy = last (values_of u pairs).

(** A string without line boundary. *)
Fixpoint one_line (s : string) : bool :=
  match s with
  | EmptyString => true
  | String c s' => negb (is_linebreak c) && one_line s'
  end.

(** The lines written one after the other, each closed by LF. *)
Fixpoint unlines (lines : list string) : string :=
  match lines with
  | [] => ""
  | l :: rest => l +:+ String "010"%char (unlines rest)
  end.

(** A memo table is clean when no key of it is its own transitive manager. *)
Definition clean (hierarchy : pydict string) (memo : gmap string user_set) : Prop :=
  ∀ k, is_Some (memo !! k) → ¬ below hierarchy k k.

(** What one call of the recursion does around a cycle: it does not return
    on a user of a cycle, and it keeps a clean memo table clean. *)
Definition rec_cycle (hierarchy : pydict string)
    (rec : string → gmap string user_set → option (user_set * gmap string user_set))
  : Prop :=
  ∀ w memo, clean hierarchy memo →
    (below hierarchy w w → rec w memo = None) ∧
    (∀ r memo', rec w memo = Some (r, memo') → clean hierarchy memo').

(** *** The interpreter's recursion limit

    [sys.getrecursionlimit()] is 1000 unless changed; the calls of
    [gather_subordinates] get at most that many frames. *)
Definition python_recursion_limit : nat := 1000.

Definition user_name (i : nat) : string := "u" +:+ pretty i.

(** A reporting line listed from the top: [u1] reports to [u0], [u2] to
    [u1], and so on down to [u n]. *)
Definition deep_chain (n : nat) : pydict string :=
  (λ i, (user_name (S i), user_name i)) <$> seq 0 n.

(** *** The reading of [notify] that unites all lures of a domain

    The entry of a domain holds the users of the notify-sets of all the
    terms that the lure list gives for that domain. *)
Definition entries_unite_all_lures_of_domain (self : LureNotifier)
    (lures : list lure) : Prop :=
  ∀ d users, dict_get d (notify self lures).1 = Some users →
    ∀ x, x ∈ users ↔
      ∃ terms t, (d, terms) ∈ lures ∧ t ∈ terms ∧
                 x ∈ get_or_empty (TERM_NOTIFICATIONS_MAP self) t.

(** A rank for the users of the examples: A above B above everyone else. *)
Definition example_rank (user_id : string) : nat :=
  if decide (user_id = "A") then 0 else if decide (user_id = "B") then 1 else 2.

(** Closed decidable goals are settled by evaluation. *)
Ltac by_compute := refine (bool_decide_unpack _ _); vm_compute; exact I.

(** ** The reporting-chain map *)

Section Hierarchy.

Variable h : pydict string.

Local Abbreviation K := (key_set h).

Lemma below_last w u :
  below h w u ↔ reports_to h w u ∨ ∃ v, below h w v ∧ reports_to h v u.
Proof.
  split.
  - induction 1 as [x y Hxy | x y z Hxy Hyz IH].
    + by left.
    + right. destruct IH as [Hd | (v & Hv & Hvz)].
      * exists y. split; [by apply tc_once | done].
      * exists v. split; [by eapply tc_l | done].
  - intros [Hd | (v & Hv & Hvu)]; [by apply tc_once | by eapply tc_r].
Qed.

Lemma below_reports w u :
  below h w u ↔ ∃ v, reports_to h v u ∧ (w = v ∨ below h w v).
Proof.
  rewrite below_last. split.
  - intros [Hd | (v & Hv & Hvu)]; eauto.
  - intros (v & Hvu & [-> | Hv]); eauto.
Qed.

Lemma reports_to_key w u : reports_to h w u → w ∈ keys h.
Proof. intros Hin. apply (list_elem_of_fmap_2 fst) in Hin. exact Hin. Qed.

Lemma gather_loop_sound rec u :
  rec_sound h rec →
  ∀ items acc memo subs memo',
    (∀ p, p ∈ items → p ∈ h) →
    memo_ok h memo →
    gather_loop rec u items acc memo = Some (subs, memo') →
    memo_ok h memo' ∧
    (∀ x, x ∈ subs ↔ x ∈ acc ∨ ∃ v, (v, u) ∈ items ∧ (x = v ∨ below h x v)) ∧
    dom memo ⊆ dom memo' ∧ dom memo' ⊆ dom memo ∪ K.
Proof.
  intros Hrec. induction items as [| [user manager] rest IH];
    intros acc memo subs memo' Hsub Hok Hrun; simpl in Hrun.
  - injection Hrun as <- <-. split; [done |]. split; [| set_solver].
    intros x. split; [by left |]. intros [Hx | (v & Hv & _)]; [done |].
    by apply elem_of_nil in Hv.
  - assert (Hrest : ∀ p, p ∈ rest → p ∈ h)
      by (intros p Hp; apply Hsub; by right).
    assert (Hhead : reports_to h user manager) by (apply Hsub; by left).
    destruct (decide (manager = u)) as [-> | Hne].
    + destruct (rec user memo) as [[sub1 memo1] |] eqn:Hcall; [| done].
      destruct (Hrec _ _ _ _ Hok Hcall) as (Hok1 & Hsub1 & Hd1 & _ & Hd1').
      destruct (IH _ _ _ _ Hrest Hok1 Hrun) as (Hok2 & Hsubs & Hd2 & Hd2').
      split; [done |]. split.
      * intros x. rewrite Hsubs, !elem_of_union, elem_of_singleton, Hsub1.
        split.
        -- intros [[[Hx | ->] | Hx] | (v & Hv & Hx)]; eauto.
           ++ right. exists user. split; [by left | by left].
           ++ right. exists user. split; [by left | by right].
           ++ right. exists v. split; [by right | done].
        -- intros [Hx | (v & Hv & Hx)]; [by left; left; left |].
           apply elem_of_cons in Hv as [[= -> ] | Hv].
           ++ left. destruct Hx as [-> | Hx]; [left; by right | by right].
           ++ right. eauto.
      * apply reports_to_key in Hhead.
        assert (Huser : user ∈ K) by (by apply elem_of_list_to_set).
        clear -Hd1 Hd1' Hd2 Hd2' Huser. set_solver.
    + destruct (IH _ _ _ _ Hrest Hok Hrun) as (Hok2 & Hsubs & Hd2 & Hd2').
      split; [done |]. split; [| done].
      intros x. rewrite Hsubs. split.
      * intros [Hx | (v & Hv & Hx)]; [by left |].
        right. exists v. split; [by right | done].
      * intros [Hx | (v & Hv & Hx)]; [by left |].
        apply elem_of_cons in Hv as [[= -> ?] | Hv]; [done |].
        right. eauto.
Qed.

Lemma gather_subordinates_sound fuel : rec_sound h (gather_subordinates fuel h).
Proof.
  induction fuel as [| fuel IH]; intros u memo subs memo' Hok Hrun;
    simpl in Hrun; [done |].
  destruct (memo !! u) as [known |] eqn:Hmemo.
  - injection Hrun as <- <-.
    split; [done |]. split; [by apply (Hok u) |].
    assert (u ∈ dom memo) by (apply elem_of_dom; eauto).
    set_solver.
  - destruct (gather_loop _ u h ∅ memo) as [[sub1 memo1] |] eqn:Hloop; [| done].
    injection Hrun as <- <-.
    destruct (gather_loop_sound _ u IH h ∅ memo sub1 memo1) as (Hok1 & Hsub1 & Hd & Hd');
      [done | done | done |].
    assert (Hmine : ∀ x, x ∈ sub1 ↔ below h x u).
    { intros x. rewrite Hsub1, below_reports. split.
      - intros [Hx | Hx]; [set_solver | done].
      - intros Hx. by right. }
    split.
    + intros k known Hk w.
      destruct (decide (k = u)) as [-> | Hne].
      * rewrite lookup_insert_eq in Hk. injection Hk as <-. apply Hmine.
      * rewrite lookup_insert_ne in Hk by done. by apply (Hok1 k).
    + split; [done |]. rewrite dom_insert_L. clear -Hd Hd'. set_solver.
Qed.

Lemma build_loop_sound fuel users memo chain :
  memo_ok h memo →
  build_loop fuel h users memo = Some chain →
  memo_ok h chain ∧ dom memo ⊆ dom chain ∧
  (∀ u, u ∈ users → u ∈ dom chain) ∧
  dom chain ⊆ dom memo ∪ list_to_set users ∪ K.
Proof.
  revert memo. induction users as [| user rest IH]; intros memo Hok Hrun;
    simpl in Hrun.
  - injection Hrun as <-. split; [done |]. split; [done |].
    split; [| set_solver]. intros u Hu. by apply elem_of_nil in Hu.
  - destruct (gather_subordinates fuel h user memo) as [[subs memo1] |] eqn:Hcall;
      [| done].
    destruct (gather_subordinates_sound fuel _ _ _ _ Hok Hcall)
      as (Hok1 & _ & Hd1 & Hu1 & Hd1').
    destruct (IH _ Hok1 Hrun) as (Hok2 & Hd2 & Hall & Hd2').
    split; [done |]. split; [set_solver |]. split.
    + intros u [-> | Hu]%elem_of_cons; [set_solver | by apply Hall].
    + rewrite list_to_set_cons. clear -Hd1' Hd2'. set_solver.
Qed.

(** Whatever map the construction returns has exactly the keys of the
    manager map as its keys, and each entry is the set of users below its
    key. *)
Lemma chain_map_sound fuel chain :
  _build_user_reports_chain_map fuel h = Some chain →
  dom chain = K ∧
  ∀ u, u ∈ keys h →
    ∃ subs, chain !! u = Some subs ∧ ∀ w, w ∈ subs ↔ below h w u.
Proof.
  intros Hrun. unfold _build_user_reports_chain_map in Hrun.
  destruct (build_loop_sound fuel (keys h) ∅ chain) as (Hok & _ & Hall & Hd);
    [by intros u known Hu; rewrite lookup_empty in Hu | done |].
  assert (Hdom : dom chain = K).
  { apply set_eq. intros u. split.
    - intros Hu. apply Hd in Hu. set_solver.
    - intros Hu. apply Hall. by apply elem_of_list_to_set in Hu. }
  split; [done |].
  intros u Hu. apply Hall, elem_of_dom in Hu as [subs Hsubs].
  exists subs. split; [done |]. by apply (Hok u).
Qed.

(** *** Termination under acyclicity *)

(** A strictly decreasing rank along the manager edges rules out cycles. *)
Lemma ranked_acyclic (rank : string → nat) :
  Forall (λ p, rank p.2 < rank p.1) h → acyclic h.
Proof.
  intros Hrank.
  assert (Hlt : ∀ w u, below h w u → rank u < rank w).
  { induction 1 as [x y Hxy | x y z Hxy _ IH].
    - rewrite Forall_forall in Hrank. apply (Hrank (x, y) Hxy).
    - rewrite Forall_forall in Hrank. specialize (Hrank (x, y) Hxy).
      simpl in Hrank. lia. }
  intros u Hu. apply Hlt in Hu. lia.
Qed.

Lemma gather_loop_total rec u :
  ∀ items acc memo,
    (∀ v memo1, (v, u) ∈ items → is_Some (rec v memo1)) →
    is_Some (gather_loop rec u items acc memo).
Proof.
  induction items as [| [user manager] rest IH]; intros acc memo Hrec; simpl.
  - eauto.
  - destruct (decide (manager = u)) as [-> | Hne].
    + destruct (Hrec user memo) as [[below1 memo1] Hcall]; [by left |].
      rewrite Hcall. apply IH. intros v m Hv. apply Hrec. by right.
    + apply IH. intros v m Hv. apply Hrec. by right.
Qed.

(** The call stack [u :: stack] of [gather_subordinates] never repeats a
    user in an acyclic hierarchy, and all of it but the bottom frame [root]
    are keys of the manager map: its depth is at most [length h + 1]. *)
Lemma gather_subordinates_total_stack (Hacyc : acyclic h) root :
  ∀ fuel stack u memo,
    NoDup (u :: stack) →
    (∀ x, x ∈ stack → below h u x) →
    (∀ x, x ∈ u :: stack → x = root ∨ x ∈ keys h) →
    S (length h) < fuel + length (u :: stack) →
    is_Some (gather_subordinates fuel h u memo).
Proof.
  induction fuel as [| fuel IH]; intros stack u memo Hnd Hbelow Hkeys Hfuel.
  - exfalso.
    assert (Hle : length (u :: stack) ≤ length (root :: keys h)).
    { apply submseteq_length, NoDup_submseteq; [done |].
      intros x Hx. destruct (Hkeys x Hx) as [-> | Hk]; [by left | by right]. }
    unfold keys in Hle. simpl in Hle, Hfuel. rewrite length_fmap in Hle. lia.
  - simpl. destruct (memo !! u) as [known |]; [eauto |].
    destruct (gather_loop_total (gather_subordinates fuel h) u h ∅ memo)
      as [[subs memo1] Hloop]; [| rewrite Hloop; eauto].
    intros v memo1 Hv. apply (IH (u :: stack)).
    + apply NoDup_cons. split; [| done].
      intros [-> | Hin]%elem_of_cons.
      * apply (Hacyc u). by apply tc_once.
      * apply (Hacyc v). eapply tc_l; [exact Hv | by apply Hbelow].
    + intros x [-> | Hx]%elem_of_cons; [by apply tc_once |].
      eapply tc_l; [exact Hv | by apply Hbelow].
    + intros x [-> | Hx]%elem_of_cons; [| by apply Hkeys].
      right. by eapply reports_to_key.
    + simpl in *. lia.
Qed.

Lemma gather_subordinates_total (Hacyc : acyclic h) fuel u memo :
  S (length h) ≤ fuel → is_Some (gather_subordinates fuel h u memo).
Proof.
  intros Hfuel. apply (gather_subordinates_total_stack Hacyc u fuel []).
  - apply NoDup_singleton.
  - intros x Hx. by apply elem_of_nil in Hx.
  - intros x Hx. left. by apply list_elem_of_singleton in Hx.
  - simpl. lia.
Qed.

Lemma build_loop_total (Hacyc : acyclic h) fuel users memo :
  S (length h) ≤ fuel → is_Some (build_loop fuel h users memo).
Proof.
  intros Hfuel. revert memo. induction users as [| user rest IH]; intros memo; simpl.
  - eauto.
  - destruct (gather_subordinates_total Hacyc fuel user memo Hfuel)
      as [[subs memo1] Hcall].
    rewrite Hcall. apply IH.
Qed.

(** *** More fuel never changes a result *)

Lemma gather_loop_mono rec rec' u :
  (∀ v memo r, rec v memo = Some r → rec' v memo = Some r) →
  ∀ items acc memo r,
    gather_loop rec u items acc memo = Some r →
    gather_loop rec' u items acc memo = Some r.
Proof.
  intros Hrec. induction items as [| [user manager] rest IH];
    intros acc memo r Hrun; simpl in *; [done |].
  destruct (decide (manager = u)); [| by apply IH].
  destruct (rec user memo) as [[below1 memo1] |] eqn:Hcall; [| done].
  rewrite (Hrec _ _ _ Hcall). by apply IH.
Qed.

Lemma gather_subordinates_mono fuel fuel' u memo r :
  fuel ≤ fuel' →
  gather_subordinates fuel h u memo = Some r →
  gather_subordinates fuel' h u memo = Some r.
Proof.
  revert fuel' u memo r. induction fuel as [| fuel IH];
    intros fuel' u memo r Hle Hrun; simpl in Hrun; [done |].
  destruct fuel' as [| fuel']; [lia |]. simpl.
  destruct (memo !! u); [done |].
  destruct (gather_loop (gather_subordinates fuel h) u h ∅ memo)
    as [[subs memo1] |] eqn:Hloop; [| done].
  apply (gather_loop_mono _ (gather_subordinates fuel' h)) in Hloop.
  - by rewrite Hloop.
  - intros v m r' Hr'. apply IH; [lia | done].
Qed.

Lemma build_loop_mono fuel fuel' users memo chain :
  fuel ≤ fuel' →
  build_loop fuel h users memo = Some chain →
  build_loop fuel' h users memo = Some chain.
Proof.
  intros Hle. revert memo. induction users as [| user rest IH];
    intros memo Hrun; simpl in *; [done |].
  destruct (gather_subordinates fuel h user memo) as [[subs memo1] |] eqn:Hcall;
    [| done].
  rewrite (gather_subordinates_mono _ _ _ _ _ Hle Hcall). by apply IH.
Qed.

(** For an acyclic manager map the construction returns one map, the same
    for every fuel of at least [length h + 1]. *)
Lemma chain_map_total (Hacyc : acyclic h) :
  ∃ chain, ∀ fuel, S (length h) ≤ fuel →
    _build_user_reports_chain_map fuel h = Some chain.
Proof.
  destruct (build_loop_total Hacyc (S (length h)) (keys h) ∅) as [chain Hrun];
    [done |].
  exists chain. intros fuel Hfuel.
  by apply (build_loop_mono (S (length h))).
Qed.

End Hierarchy.

(** ** The term-notification map *)

Section Notifications.

Variable chain : gmap string user_set.

Lemma add_notification_get u tn t t' x :
  x ∈ get_or_empty (add_notification chain u tn t) t' ↔
  x ∈ get_or_empty tn t' ∨ (t' = t ∧ (x = u ∨ x ∈ get_or_empty chain u)).
Proof.
  unfold add_notification, get_or_empty.
  destruct (decide (t = t')) as [<- | Hne].
  - rewrite lookup_insert_eq. simpl.
    destruct (tn !! t) as [old |] eqn:Hold; simpl.
    + rewrite Hold. simpl. set_solver.
    + rewrite lookup_insert_eq. simpl. set_solver.
  - rewrite lookup_insert_ne by done.
    destruct (tn !! t) as [old |] eqn:Hold.
    + naive_solver.
    + rewrite lookup_insert_ne by done. naive_solver.
Qed.

Lemma add_notification_dom u tn t :
  dom (add_notification chain u tn t) = {[t]} ∪ dom tn.
Proof.
  unfold add_notification. rewrite dom_insert_L.
  destruct (tn !! t); [done |]. rewrite dom_insert_L. set_solver.
Qed.

Lemma add_terms_get u terms : ∀ tn t x,
  x ∈ get_or_empty (foldl (add_notification chain u) tn terms) t ↔
  x ∈ get_or_empty tn t ∨ (t ∈ terms ∧ (x = u ∨ x ∈ get_or_empty chain u)).
Proof.
  induction terms as [| term rest IH]; intros tn t x; simpl.
  - split; [by left |]. intros [Hx | [Hin _]]; [done |]. by apply elem_of_nil in Hin.
  - rewrite IH, add_notification_get, elem_of_cons. naive_solver.
Qed.

Lemma add_terms_dom u terms : ∀ tn,
  dom (foldl (add_notification chain u) tn terms) = list_to_set terms ∪ dom tn.
Proof.
  induction terms as [| term rest IH]; intros tn; simpl.
  - set_solver.
  - rewrite IH, add_notification_dom. set_solver.
Qed.

Lemma precompute_from_get subs : ∀ tn t x,
  x ∈ get_or_empty (precompute_from chain tn subs) t ↔
  x ∈ get_or_empty tn t ∨ notified chain subs t x.
Proof.
  unfold notified, subscribes, precompute_from.
  induction subs as [| [u terms] rest IH]; intros tn t x; simpl.
  - split; [by left |]. intros [Hx | (u & (terms & Hin & _) & _)]; [done |].
    by apply elem_of_nil in Hin.
  - rewrite IH, add_terms_get. split.
    + intros [[Hx | [Ht Hx]] | (u' & (terms' & Hin & Ht) & Hx)].
      * by left.
      * right. exists u. split; [| done]. exists terms. split; [by left | done].
      * right. exists u'. split; [| done]. exists terms'. split; [by right | done].
    + intros [Hx | (u' & (terms' & Hin & Ht) & Hx)]; [by left; left |].
      apply elem_of_cons in Hin as [[= -> ->] | Hin].
      * left. right. done.
      * right. exists u'. split; [| done]. by exists terms'.
Qed.

Lemma precompute_from_dom subs : ∀ tn t,
  t ∈ dom (precompute_from chain tn subs) ↔ t ∈ dom tn ∨ ∃ u, subscribes subs u t.
Proof.
  unfold subscribes, precompute_from.
  induction subs as [| [u terms] rest IH]; intros tn t; simpl.
  - split; [by left |]. intros [Ht | (u & terms & Hin & _)]; [done |].
    by apply elem_of_nil in Hin.
  - rewrite IH, add_terms_dom, elem_of_union, elem_of_list_to_set. split.
    + intros [[Ht | Ht] | (u' & terms' & Hin & Ht)].
      * right. exists u, terms. split; [by left | done].
      * by left.
      * right. exists u', terms'. split; [by right | done].
    + intros [Ht | (u' & terms' & Hin & Ht)]; [by left; right |].
      apply elem_of_cons in Hin as [[= -> ->] | Hin].
      * left. by left.
      * right. by exists u', terms'.
Qed.

(** The notify-set of a term is made of its subscribers and their chain
    entries; the keys are the subscribed terms. *)
Lemma precompute_get subs t x :
  x ∈ get_or_empty (_precompute_notifications subs chain) t ↔ notified chain subs t x.
Proof.
  change (_precompute_notifications subs chain) with (precompute_from chain ∅ subs).
  rewrite precompute_from_get. unfold get_or_empty at 1.
  rewrite lookup_empty. simpl. set_solver.
Qed.

Lemma precompute_dom subs t :
  t ∈ dom (_precompute_notifications subs chain) ↔ ∃ u, subscribes subs u t.
Proof.
  change (_precompute_notifications subs chain) with (precompute_from chain ∅ subs).
  rewrite precompute_from_dom, dom_empty_L. set_solver.
Qed.

End Notifications.

(** ** Substring test and lure detection *)

Lemma append_nil (s : string) : "" +:+ s = s.
Proof. reflexivity. Qed.

Lemma append_cons (a : ascii) (p s : string) :
  String a p +:+ s = String a (p +:+ s).
Proof. reflexivity. Qed.

Lemma startswith_spec p : ∀ s, startswith p s = true ↔ ∃ post, s = p +:+ post.
Proof.
  induction p as [| a p IH]; intros s; simpl.
  - split; [intros _; by exists s | done].
  - destruct s as [| b s]; simpl.
    + split; [done | intros [post Hpost]; by rewrite append_cons in Hpost].
    + destruct (decide (a = b)) as [-> | Hne].
      * rewrite IH. split; intros [post Hpost]; exists post;
          rewrite append_cons in *; congruence.
      * split; [done |]. intros [post Hpost].
        rewrite append_cons in Hpost. congruence.
Qed.

Lemma str_contains_spec t : ∀ s, str_contains t s = true ↔ substring_of t s.
Proof.
  unfold substring_of. induction s as [| c s IH]; simpl.
  - rewrite orb_false_r, startswith_spec. split.
    + intros [post Hpost]. by exists "", post.
    + intros ([| a pre] & post & Hs); [by exists post |].
      by rewrite append_cons in Hs.
  - rewrite orb_true_iff, startswith_spec, IH. split.
    + intros [[post Hpost] | (pre & post & Hs)].
      * by exists "", post.
      * exists (String c pre), post. by rewrite append_cons, Hs.
    + intros ([| a pre] & post & Hs).
      * left. by exists post.
      * right. exists pre, post. rewrite append_cons in Hs. congruence.
Qed.

Lemma TERMS_NoDup : NoDup TERMS.
Proof. refine (bool_decide_unpack _ _). vm_compute. exact I. Qed.

(** Two or more elements pass a filter over a duplicate-free list exactly
    when two different elements of the list pass it. *)
Lemma filter_two {A} (f : A → bool) (l : list A) :
  NoDup l →
  2 ≤ length (List.filter f l) ↔
  ∃ a b, a ≠ b ∧ a ∈ l ∧ b ∈ l ∧ f a = true ∧ f b = true.
Proof.
  intros Hnd.
  assert (Hin : ∀ x, x ∈ List.filter f l ↔ x ∈ l ∧ f x = true).
  { intros x. rewrite !list_elem_of_In. apply filter_In. }
  assert (Hnd' : NoDup (List.filter f l)).
  { apply NoDup_ListNoDup, List.NoDup_filter. by apply NoDup_ListNoDup. }
  split.
  - intros Hlen. destruct (List.filter f l) as [| a [| b rest]] eqn:Hf;
      simpl in Hlen; [lia | lia |].
    exists a, b.
    apply NoDup_cons in Hnd' as [Hab _].
    assert (Ha : a ∈ l ∧ f a = true) by (apply Hin; by left).
    assert (Hb : b ∈ l ∧ f b = true) by (apply Hin; right; by left).
    split; [| naive_solver]. intros ->. apply Hab. by left.
  - intros (a & b & Hab & Ha & Hb & Hfa & Hfb).
    assert (Ha' : a ∈ List.filter f l) by (by apply Hin).
    assert (Hb' : b ∈ List.filter f l) by (by apply Hin).
    destruct (List.filter f l) as [| x [| y rest]]; simpl; [| | lia].
    + by apply elem_of_nil in Ha'.
    + apply list_elem_of_singleton in Ha', Hb'. congruence.
Qed.

Lemma matched_terms_elem lower_domain t :
  t ∈ matched_terms lower_domain ↔ t ∈ TERMS ∧ substring_of t lower_domain.
Proof.
  unfold matched_terms. rewrite !list_elem_of_In, filter_In, str_contains_spec.
  done.
Qed.

Lemma matched_terms_NoDup lower_domain : NoDup (matched_terms lower_domain).
Proof.
  apply NoDup_ListNoDup, List.NoDup_filter, NoDup_ListNoDup, TERMS_NoDup.
Qed.

Lemma filter_sublist {A} (f : A → bool) (l : list A) : sublist (List.filter f l) l.
Proof.
  induction l as [| x l IH]; simpl; [constructor |].
  destruct (f x); by constructor.
Qed.

Lemma qualifies_spec domain : qualifies domain = true ↔ is_lure domain.
Proof.
  unfold qualifies, is_lure. rewrite Nat.leb_le.
  unfold matched_terms. rewrite (filter_two _ _ TERMS_NoDup).
  split; intros (a & b & Hab & Ha & Hb & Hfa & Hfb); exists a, b;
    rewrite ?str_contains_spec in *; naive_solver.
Qed.

(** The loop appends, in input order, one record per qualifying domain. *)
Lemma identify_loop_spec domains : ∀ lures,
  identify_loop domains lures =
  lures ++ ((λ domain, (domain, matched_terms (lower domain)))
              <$> List.filter qualifies domains).
Proof.
  induction domains as [| domain rest IH]; intros lures;
    cbn [identify_loop List.filter fmap list_fmap].
  - by rewrite app_nil_r.
  - change (2 <=? length (matched_terms (lower domain))) with (qualifies domain).
    destruct (qualifies domain) eqn:Hq; rewrite IH; [| done].
    by rewrite <- app_assoc.
Qed.

(** ** Dictionary updates *)

Section DictLemmas.

Context {V : Type}.
Implicit Types (d : pydict V) (k : string) (v : V).

Lemma dict_get_set_eq k v d : dict_get k (dict_set k v d) = Some v.
Proof.
  induction d as [| [k' v'] d IH]; simpl.
  - by rewrite decide_True.
  - destruct (decide (k' = k)) as [-> | Hne]; simpl.
    + by rewrite decide_True.
    + by rewrite decide_False.
Qed.

Lemma dict_get_set_ne k k' v d :
  k ≠ k' → dict_get k' (dict_set k v d) = dict_get k' d.
Proof.
  intros Hne. induction d as [| [k0 v0] d IH]; simpl.
  - by rewrite decide_False.
  - destruct (decide (k0 = k)) as [-> | Hne0]; simpl.
    + by rewrite !decide_False.
    + by rewrite IH.
Qed.

Lemma keys_dict_set k v d :
  keys (dict_set k v d) = if decide (k ∈ keys d) then keys d else keys d ++ [k].
Proof.
  unfold keys. induction d as [| [k' v'] d IH]; cbn [dict_set fmap list_fmap fst].
  - rewrite decide_False; [done |]. by intros ?%elem_of_nil.
  - destruct (decide (k' = k)) as [-> | Hne]; cbn [fmap list_fmap fst].
    + rewrite decide_True; [done | by left].
    + rewrite IH. destruct (decide (k ∈ d.*1)) as [Hin | Hnin].
      * rewrite decide_True; [done | by right].
      * rewrite decide_False; [done |].
        intros [? | ?]%elem_of_cons; [congruence | done].
Qed.

Lemma keys_dict_set_elem k k' v d :
  k' ∈ keys (dict_set k v d) ↔ k' = k ∨ k' ∈ keys d.
Proof.
  rewrite keys_dict_set. destruct (decide (k ∈ keys d)) as [Hin | Hnin].
  - naive_solver.
  - rewrite elem_of_app, list_elem_of_singleton. naive_solver.
Qed.

Lemma keys_dict_set_NoDup k v d : NoDup (keys d) → NoDup (keys (dict_set k v d)).
Proof.
  intros Hnd. rewrite keys_dict_set. destruct (decide (k ∈ keys d)); [done |].
  apply NoDup_app. split; [done |]. split; [| apply NoDup_singleton].
  intros x Hx ->%list_elem_of_singleton. done.
Qed.

Lemma dict_get_elem k v d : dict_get k d = Some v → (k, v) ∈ d.
Proof.
  induction d as [| [k' v'] d IH]; simpl; [done |].
  destruct (decide (k' = k)) as [-> | Hne].
  - intros [= ->]. by left.
  - intros Hget. right. by apply IH.
Qed.

Lemma dict_get_is_Some k d : is_Some (dict_get k d) ↔ k ∈ keys d.
Proof.
  unfold keys. induction d as [| [k' v'] d IH]; simpl.
  - split; [by intros [? ?] | by intros ?%elem_of_nil].
  - destruct (decide (k' = k)) as [-> | Hne].
    + split; [intros _; by left | eauto].
    + rewrite IH, elem_of_cons. naive_solver.
Qed.

(** An item survives an update unless it is the one that is replaced. *)
Lemma dict_set_keeps k v k' v' d :
  (k', v') ∈ d →
  (k', v') ∈ dict_set k v d ∨ (k' = k ∧ dict_get k d = Some v').
Proof.
  induction d as [| [k0 v0] d IH]; simpl; [by intros ?%elem_of_nil |].
  intros [[= -> ->] | Hin]%elem_of_cons.
  - destruct (decide (k0 = k)) as [-> | Hne]; [by right | left; by left].
  - destruct (decide (k0 = k)) as [-> | Hne]; [left; by right |].
    destruct (IH Hin) as [Hkeep | Hrepl]; [left; by right | by right].
Qed.

End DictLemmas.

(** ** Notification *)

Section Notify.

Variable term_map : gmap string user_set.

Lemma users_from_spec terms : ∀ acc x,
  x ∈ foldl (λ users_to_notify term,
               users_to_notify ∪ get_or_empty term_map term) acc terms ↔
  x ∈ acc ∨ ∃ t, t ∈ terms ∧ x ∈ get_or_empty term_map t.
Proof.
  induction terms as [| term rest IH]; intros acc x; simpl.
  - split; [by left |]. intros [Hx | (t & Ht & _)]; [done |].
    by apply elem_of_nil in Ht.
  - rewrite IH, elem_of_union. split.
    + intros [[Hx | Hx] | (t & Ht & Hx)]; [by left | |].
      * right. exists term. split; [by left | done].
      * right. exists t. split; [by right | done].
    + intros [Hx | (t & [-> | Ht]%elem_of_cons & Hx)];
        [by left; left | by left; right | right; eauto].
Qed.

Lemma users_for_spec terms x :
  x ∈ users_for term_map terms ↔ ∃ t, t ∈ terms ∧ x ∈ get_or_empty term_map t.
Proof. unfold users_for. rewrite users_from_spec. set_solver. Qed.

Lemma notify_loop_app l1 : ∀ l2 acc,
  notify_loop term_map (l1 ++ l2) acc
  = notify_loop term_map l2 (notify_loop term_map l1 acc).
Proof.
  induction l1 as [| [domain terms] l1 IH]; intros l2 acc; simpl; [done |].
  by rewrite IH.
Qed.

Lemma notify_loop_get_other lures : ∀ acc d,
  d ∉ lures.*1 →
  dict_get d (notify_loop term_map lures acc) = dict_get d acc.
Proof.
  induction lures as [| [domain terms] rest IH]; intros acc d Hd; simpl; [done |].
  simpl in Hd. apply not_elem_of_cons in Hd as [Hne Hd].
  rewrite IH by done. by apply dict_get_set_ne.
Qed.

Lemma notify_loop_keys lures : ∀ acc d,
  d ∈ keys (notify_loop term_map lures acc) ↔ d ∈ keys acc ∨ d ∈ lures.*1.
Proof.
  induction lures as [| [domain terms] rest IH]; intros acc d; simpl.
  - split; [by left |]. intros [Hd | Hd]; [done | by apply elem_of_nil in Hd].
  - rewrite IH, keys_dict_set_elem, elem_of_cons. naive_solver.
Qed.

Lemma notify_loop_NoDup lures : ∀ acc,
  NoDup (keys acc) → NoDup (keys (notify_loop term_map lures acc)).
Proof.
  induction lures as [| [domain terms] rest IH]; intros acc Hnd; simpl; [done |].
  by apply IH, keys_dict_set_NoDup.
Qed.

(** With pairwise different domains the entries come in input order. *)
Lemma notify_loop_keys_NoDup lures : ∀ acc,
  NoDup (keys acc ++ lures.*1) →
  keys (notify_loop term_map lures acc) = keys acc ++ lures.*1.
Proof.
  induction lures as [| [domain terms] rest IH]; intros acc Hnd; simpl.
  - by rewrite app_nil_r.
  - simpl in Hnd.
    assert (Hfresh : domain ∉ keys acc).
    { apply NoDup_app in Hnd as (_ & Hdis & _). intros Hin.
      apply (Hdis domain Hin). by left. }
    assert (Hkeys : keys (dict_set domain (elements (users_for term_map terms)) acc)
                    = keys acc ++ [domain])
      by (rewrite keys_dict_set; by rewrite decide_False).
    rewrite IH; rewrite Hkeys, <- app_assoc; [done |]. exact Hnd.
Qed.

End Notify.

(** ** Construction *)

Lemma init_mono fuel fuel' domains subs h n :
  fuel ≤ fuel' →
  init fuel domains subs h = Some n → init fuel' domains subs h = Some n.
Proof.
  unfold init, _build_user_reports_chain_map. intros Hle Hrun.
  destruct (build_loop fuel h (keys h) ∅) as [chain |] eqn:Hchain; [| done].
  by rewrite (build_loop_mono h fuel fuel' _ _ _ Hle Hchain).
Qed.

(** What the constructed notifier holds, for any manager map on which the
    construction returns: chain entries exist for the keys of the manager
    map only, and a notify-set is made of the subscribers of its term and
    of the users below those subscribers that are keys of the manager map. *)
Lemma init_sound fuel domains subs h n :
  init fuel domains subs h = Some n →
  dom (USER_REPORTS_CHAIN_MAP n) = key_set h ∧
  (∀ u, u ∈ keys h →
     ∃ s, USER_REPORTS_CHAIN_MAP n !! u = Some s ∧ ∀ w, w ∈ s ↔ below h w u) ∧
  (∀ t, t ∈ dom (TERM_NOTIFICATIONS_MAP n) ↔ ∃ u, subscribes subs u t) ∧
  (∀ t x, x ∈ get_or_empty (TERM_NOTIFICATIONS_MAP n) t ↔
     ∃ u, subscribes subs u t ∧ (x = u ∨ (u ∈ keys h ∧ below h x u))).
Proof.
  unfold init. intros Hrun.
  destruct (_build_user_reports_chain_map fuel h) as [chain |] eqn:Hchain; [| done].
  injection Hrun as <-. simpl.
  destruct (chain_map_sound h fuel chain Hchain) as [Hdom Hentries].
  split; [done |]. split; [done |]. split; [apply precompute_dom |].
  intros t x. rewrite precompute_get. unfold notified.
  assert (Hget : ∀ u, x ∈ get_or_empty chain u ↔ u ∈ keys h ∧ below h x u).
  { intros u. unfold get_or_empty. destruct (chain !! u) as [s |] eqn:Hu; simpl.
    - assert (Hk : u ∈ keys h).
      { assert (Hk : u ∈ key_set h) by (rewrite <- Hdom; apply elem_of_dom; eauto).
        unfold key_set in Hk. by apply elem_of_list_to_set in Hk. }
      destruct (Hentries u Hk) as (s' & Hs' & Hbelow).
      rewrite Hu in Hs'. injection Hs' as <-. rewrite Hbelow. naive_solver.
    - split; [set_solver |]. intros [Hk _].
      destruct (Hentries u Hk) as (s' & Hs' & _). congruence. }
  split; intros (u & Hsub & Hx); exists u; (split; [done |]);
    rewrite Hget in *; done.
Qed.

(** A two-cycle never lets [gather_subordinates] return. *)
Lemma two_cycle_never_returns fuel : ∀ memo,
  memo !! "A" = None → memo !! "B" = None →
  gather_subordinates fuel [("A", "B"); ("B", "A")] "A" memo = None ∧
  gather_subordinates fuel [("A", "B"); ("B", "A")] "B" memo = None.
Proof.
  induction fuel as [| fuel IH]; intros memo HA HB; [done |].
  destruct (IH memo HA HB) as [IHA IHB].
  split; simpl; rewrite ?HA, ?HB.
  - by rewrite IHB.
  - by rewrite IHA.
Qed.

Lemma cyclic_construction_never_returns fuel domains subs :
  init fuel domains subs [("A", "B"); ("B", "A")] = None.
Proof.
  unfold init, _build_user_reports_chain_map. simpl.
  by destruct (two_cycle_never_returns fuel ∅ (lookup_empty _) (lookup_empty _))
    as [-> _].
Qed.


Lemma example_hierarchy_acyclic : acyclic [("B", "A"); ("C", "B")].
Proof.
  apply (ranked_acyclic _ example_rank).
  repeat (constructor; [vm_compute; lia |]). constructor.
Qed.


Lemma user_name_inj i j : user_name i = user_name j → i = j.
Proof.
  unfold user_name. intros Heq.
  assert (Hpretty : pretty i = pretty j) by (by injection Heq).
  by apply (inj pretty) in Hpretty.
Qed.

Lemma deep_chain_reports n w u :
  reports_to (deep_chain n) w u →
  ∃ i, w = user_name (S i) ∧ u = user_name i.
Proof.
  unfold reports_to, deep_chain.
  intros (i & [= -> ->] & _)%list_elem_of_fmap. by exists i.
Qed.

Lemma deep_chain_below n w u :
  below (deep_chain n) w u →
  ∃ i j, j < i ∧ w = user_name i ∧ u = user_name j.
Proof.
  induction 1 as [x y Hxy | x y z Hxy _ IH].
  - apply deep_chain_reports in Hxy as (i & -> & ->). exists (S i), i.
    split; [lia | done].
  - apply deep_chain_reports in Hxy as (i & -> & Hy).
    destruct IH as (i' & j' & Hlt & Hy' & ->).
    rewrite Hy in Hy'. apply user_name_inj in Hy' as <-.
    exists (S i), j'. split; [lia | done].
Qed.

Lemma deep_chain_acyclic n : acyclic (deep_chain n).
Proof.
  intros u (i & j & Hlt & -> & Heq)%deep_chain_below.
  apply user_name_inj in Heq. lia.
Qed.

Lemma init_none_below fuel fuel' domains subs h :
  fuel ≤ fuel' →
  init fuel' domains subs h = None → init fuel domains subs h = None.
Proof.
  intros Hle Hnone.
  destruct (init fuel domains subs h) as [n |] eqn:Hrun; [| done].
  apply (init_mono _ _ _ _ _ _ Hle) in Hrun. congruence.
Qed.


(** ** The construction on hierarchies whose top manager has no item *)

(** C2, evaluated. With the single item [B: A] the construction returns the
    chain map that has the one entry [B: {}]: the user A, who appears as a
    value of the manager map and manages B, gets no entry. *)
Theorem chain_map_skips_value_only_manager :
  ∀ k, ∃ chain,
    _build_user_reports_chain_map (2 + k) [("B", "A")] = Some chain ∧
    "A" ∈ [("B", "A")].*2 ∧ below [("B", "A")] "B" "A" ∧
    chain !! "A" = None ∧ chain !! "B" = Some ∅.
Proof.
  intros k. exists {["B" := ∅]}. split.
  - apply (build_loop_mono _ 2); [lia |]. vm_compute. reflexivity.
  - split; [by_compute |]. split; [apply tc_once; by left |]. done.
Qed.

(** C1, evaluated. A subscribes to "login" and B reports to A; the
    notify-set of "login" is {A}: B, a descendant of the subscriber, is not
    a member. *)
Theorem notify_set_misses_reports_of_top_manager :
  ∀ k, ∃ n,
    init (2 + k) [] [("A", ["login"])] [("B", "A")] = Some n ∧
    subscribes [("A", ["login"])] "A" "login" ∧ below [("B", "A")] "B" "A" ∧
    TERM_NOTIFICATIONS_MAP n !! "login" = Some {["A"]} ∧
    "B" ∉ get_or_empty (TERM_NOTIFICATIONS_MAP n) "login".
Proof.
  intros k. eexists. split.
  - apply (init_mono 2); [lia |]. vm_compute. reflexivity.
  - split; [exists ["login"]; split; by left |].
    split; [apply tc_once; by left |]. split; [done |]. by_compute.
Qed.

(** C3, evaluated. On the manager map [B: A, C: B] with the subscriptions
    [A: cisco, C: mail] the chain map has no entry for A, [B: {C}] and
    [C: {}]; the notify-set of "cisco" is {A} and that of "mail" is {C}. *)
Theorem scenario_without_item_for_top_manager :
  ∀ k, ∃ n,
    init (3 + k) [] [("A", ["cisco"]); ("C", ["mail"])]
         [("B", "A"); ("C", "B")] = Some n ∧
    USER_REPORTS_CHAIN_MAP n !! "A" = None ∧
    USER_REPORTS_CHAIN_MAP n !! "B" = Some {["C"]} ∧
    USER_REPORTS_CHAIN_MAP n !! "C" = Some ∅ ∧
    TERM_NOTIFICATIONS_MAP n !! "cisco" = Some {["A"]} ∧
    TERM_NOTIFICATIONS_MAP n !! "mail" = Some {["C"]}.
Proof.
  intros k. eexists. split.
  - apply (init_mono 3); [lia |]. vm_compute. reflexivity.
  - repeat split; by_compute.
Qed.

(** The same scenario when the top manager has an item of its own (its
    manager being nobody's id): every user is then a key, and the chain map
    and the notify-sets are the full ones. *)
Example scenario_with_item_for_top_manager :
  ∀ k, ∃ n,
    init (4 + k) [] [("A", ["cisco"]); ("C", ["mail"])]
         [("A", ""); ("B", "A"); ("C", "B")] = Some n ∧
    USER_REPORTS_CHAIN_MAP n !! "A" = Some {["B"; "C"]} ∧
    USER_REPORTS_CHAIN_MAP n !! "B" = Some {["C"]} ∧
    USER_REPORTS_CHAIN_MAP n !! "C" = Some ∅ ∧
    TERM_NOTIFICATIONS_MAP n !! "cisco" = Some {["A"; "B"; "C"]} ∧
    TERM_NOTIFICATIONS_MAP n !! "mail" = Some {["C"]}.
Proof.
  intros k. eexists. split.
  - apply (init_mono 4); [lia |]. vm_compute. reflexivity.
  - repeat split; by_compute.
Qed.

(** ** The queries *)

(** C4. [identify_lures] keeps exactly the input domains that have at least
    two vocabulary terms as substrings of their lower-cased form, in input
    order; the terms recorded for a kept domain are the matching vocabulary
    terms, each once and in vocabulary order, so no record has fewer than
    two terms. *)
Theorem identify_lures_spec (self : LureNotifier) (domains : list string) :
  let lures := (identify_lures self domains).1 in
  length TERMS = 7 ∧ NoDup TERMS ∧
  (∀ D, qualifies D = true ↔ is_lure D) ∧
  lures.*1 = List.filter qualifies domains ∧
  sublist lures.*1 domains ∧
  (∀ D, D ∈ lures.*1 ↔ D ∈ domains ∧ is_lure D) ∧
  (∀ D terms, (D, terms) ∈ lures →
     NoDup terms ∧ sublist terms TERMS ∧ 2 ≤ length terms ∧
     ∀ t, t ∈ terms ↔ t ∈ TERMS ∧ substring_of t (lower D)).
Proof.
  simpl. rewrite identify_loop_spec, app_nil_l.
  assert (Hfst : ((λ domain, (domain, matched_terms (lower domain)))
                    <$> List.filter qualifies domains).*1
                 = List.filter qualifies domains).
  { rewrite <- list_fmap_compose. apply list_fmap_id. }
  rewrite Hfst.
  split; [done |]. split; [apply TERMS_NoDup |].
  split; [apply qualifies_spec |]. split; [done |].
  split; [apply filter_sublist |]. split.
  - intros D. rewrite list_elem_of_In, filter_In, <- list_elem_of_In.
    by rewrite qualifies_spec.
  - intros D terms (D' & [= <- ->] & HD)%list_elem_of_fmap.
    apply list_elem_of_In, filter_In in HD as [_ Hq].
    split; [apply matched_terms_NoDup |].
    split; [apply filter_sublist |].
    split; [by apply Nat.leb_le |]. apply matched_terms_elem.
Qed.

Lemma identify_lures_spec_witness :
  (identify_lures
     (mkLureNotifier [] [] [] ∅ ∅)
     ["paypal-login.appspot.com"; "ciscomail.com"; "cisco.heroku.com";
      "apple.com"]).1
  = [("paypal-login.appspot.com", ["login"; "paypal"]);
     ("ciscomail.com", ["cisco"; "mail"])] ∧
  2 ≤ length ["login"; "paypal"] ∧ sublist ["login"; "paypal"] TERMS.
Proof.
  split; [vm_compute; reflexivity |].
  destruct (identify_lures_spec (mkLureNotifier [] [] [] ∅ ∅)
              ["paypal-login.appspot.com"; "ciscomail.com";
               "cisco.heroku.com"; "apple.com"])
    as (_ & _ & _ & _ & _ & _ & Hrec).
  destruct (Hrec "paypal-login.appspot.com" ["login"; "paypal"])
    as (_ & Hsub & Hlen & _); [| by split].
  vm_compute. left.
Defined.

(** C10. The records of [identify_lures] are those of the qualifying input
    domains, one each and in input order, and the record of [D] is
    [(D, terms)] with [D] spelled as in the input, the terms being those
    found in [lower D]: every returned record carries an input domain
    verbatim, and every qualifying input domain is returned verbatim. *)
Theorem lure_keeps_original_domain (self : LureNotifier)
    (domains : list string) :
  (identify_lures self domains).1
  = (λ D, (D, matched_terms (lower D))) <$> List.filter qualifies domains ∧
  (identify_lures self domains).1.*1 = List.filter qualifies domains ∧
  (∀ D terms, (D, terms) ∈ (identify_lures self domains).1 →
     D ∈ domains ∧ is_lure D ∧ terms = matched_terms (lower D)) ∧
  (∀ D, D ∈ domains → is_lure D →
     (D, matched_terms (lower D)) ∈ (identify_lures self domains).1).
Proof.
  assert (Hres : (identify_lures self domains).1
                 = (λ D, (D, matched_terms (lower D)))
                     <$> List.filter qualifies domains).
  { simpl. by rewrite identify_loop_spec. }
  rewrite Hres. split; [done |]. split.
  { rewrite <- list_fmap_compose. apply list_fmap_id. }
  split.
  - intros D terms (D' & [= <- ->] & HD)%list_elem_of_fmap.
    apply list_elem_of_In, filter_In in HD as [HD Hq].
    split; [by apply list_elem_of_In |]. split; [by apply qualifies_spec | done].
  - intros D HD Hlure.
    apply (list_elem_of_fmap_2 (λ domain, (domain, matched_terms (lower domain)))).
    apply list_elem_of_In, filter_In. split; [by apply list_elem_of_In |].
    by apply qualifies_spec.
Qed.

Lemma lure_keeps_original_domain_witness :
  lower "PayPal-Login.COM" = "paypal-login.com" ∧
  (identify_lures (mkLureNotifier [] [] [] ∅ ∅)
     ["apple.com"; "PayPal-Login.COM"]).1
  = [("PayPal-Login.COM", ["login"; "paypal"])] ∧
  ("PayPal-Login.COM", ["login"; "paypal"])
    ∈ (identify_lures (mkLureNotifier [] [] [] ∅ ∅)
         ["apple.com"; "PayPal-Login.COM"]).1.
Proof.
  split; [vm_compute; reflexivity |].
  destruct (lure_keeps_original_domain (mkLureNotifier [] [] [] ∅ ∅)
              ["apple.com"; "PayPal-Login.COM"]) as (Heq & _ & _ & Hin).
  split; [exact Heq |].
  apply (Hin "PayPal-Login.COM").
  - right. left.
  - apply qualifies_spec. vm_compute. reflexivity.
Defined.

(** C6, as amended. [notify] returns a dictionary with one entry per
    different domain of the lure list and no other entry, in input order
    when the domains are pairwise different; the entry of a domain is a
    duplicate-free list of exactly the users found in the notify-sets of
    the terms of the last lure listed for it, a term without a notify-set
    adding nobody; the list is empty when none of these terms has a user
    to notify. *)
Theorem notify_spec (self : LureNotifier) (lures : list lure) :
  let result := (notify self lures).1 in
  NoDup (keys result) ∧
  (∀ d, d ∈ keys result ↔ d ∈ lures.*1) ∧
  (NoDup lures.*1 → keys result = lures.*1) ∧
  (∀ pre d terms post,
     lures = pre ++ (d, terms) :: post → d ∉ post.*1 →
     ∃ users,
       dict_get d result = Some users ∧ NoDup users ∧
       (∀ x, x ∈ users ↔
          ∃ t s, t ∈ terms ∧ TERM_NOTIFICATIONS_MAP self !! t = Some s ∧ x ∈ s) ∧
       ((∀ t, t ∈ terms →
           TERM_NOTIFICATIONS_MAP self !! t = None ∨
           TERM_NOTIFICATIONS_MAP self !! t = Some ∅) →
        users = [])).
Proof.
  simpl. set (tm := TERM_NOTIFICATIONS_MAP self).
  split; [apply notify_loop_NoDup, NoDup_nil_2 |].
  split.
  { intros d. rewrite notify_loop_keys. split; [| by right].
    intros [Hd | Hd]; [by apply elem_of_nil in Hd | done]. }
  split; [intros Hnd; by rewrite notify_loop_keys_NoDup |].
  intros pre d terms post -> Hlast.
  exists (elements (users_for tm terms)).
  assert (Hmem : ∀ x, x ∈ users_for tm terms ↔
                      ∃ t s, t ∈ terms ∧ tm !! t = Some s ∧ x ∈ s).
  { intros x. rewrite users_for_spec. unfold get_or_empty.
    split.
    - intros (t & Ht & Hx). destruct (tm !! t) as [s |] eqn:Hs; simpl in Hx.
      + by exists t, s.
      + by apply not_elem_of_empty in Hx.
    - intros (t & s & Ht & Hs & Hx). exists t. rewrite Hs. done. }
  split.
  { rewrite notify_loop_app. simpl.
    rewrite notify_loop_get_other by done. apply dict_get_set_eq. }
  split; [apply NoDup_elements |].
  split; [intros x; by rewrite elem_of_elements |].
  intros Hnone.
  assert (Hempty : users_for tm terms = ∅).
  { apply set_eq. intros x. rewrite Hmem. split; [| set_solver].
    intros (t & s & Ht & Hs & Hx).
    destruct (Hnone t Ht) as [Hn | Hn]; rewrite Hn in Hs; [done |].
    injection Hs as <-. done. }
  rewrite Hempty. apply elements_empty.
Qed.

Lemma notify_spec_witness :
  ∃ users,
    dict_get "paypal-login.appspot.com"
      (notify (mkLureNotifier [] [] [] ∅ {["cisco" := {["A"]}]})
              [("paypal-login.appspot.com", ["login"; "paypal"]);
               ("ciscomail.com", ["cisco"; "mail"])]).1 = Some users ∧
    users = [].
Proof.
  destruct (notify_spec (mkLureNotifier [] [] [] ∅ {["cisco" := {["A"]}]})
              [("paypal-login.appspot.com", ["login"; "paypal"]);
               ("ciscomail.com", ["cisco"; "mail"])])
    as (_ & _ & _ & Hget).
  destruct (Hget [] "paypal-login.appspot.com" ["login"; "paypal"]
              [("ciscomail.com", ["cisco"; "mail"])])
    as (users & Husers & _ & _ & Hnil).
  - reflexivity.
  - by_compute.
  - exists users. split; [exact Husers |].
    apply Hnil. intros t Ht. left.
    apply elem_of_cons in Ht as [-> | Ht]; [by_compute |].
    apply list_elem_of_singleton in Ht as ->. by_compute.
Defined.

(** C6, counterexample. When a domain is listed twice, with "cisco" and
    then with "mail", its one entry is computed from "mail" alone: the
    subscriber of "cisco" is not in it. *)
Lemma notify_repeated_domain_counterexample :
  (notify (mkLureNotifier [] [] [] ∅ {["cisco" := {["A"]}]})
          [("ciscomail.com", ["cisco"]); ("ciscomail.com", ["mail"])]).1
  = [("ciscomail.com", [])] ∧
  ¬ entries_unite_all_lures_of_domain
      (mkLureNotifier [] [] [] ∅ {["cisco" := {["A"]}]})
      [("ciscomail.com", ["cisco"]); ("ciscomail.com", ["mail"])].
Proof.
  split; [vm_compute; reflexivity |].
  intros Hclaim.
  specialize (Hclaim "ciscomail.com" [] ltac:(vm_compute; reflexivity) "A").
  destruct Hclaim as [_ Hin].
  assert (HA : "A" ∈ ([] : list string)).
  { apply Hin. exists ["cisco"], "cisco".
    split; [left |]. split; [left | by_compute]. }
  by apply elem_of_nil in HA.
Qed.

(** C7. Whatever queries are run, in whatever order, the two precomputed
    maps, the subscriptions and the manager map are the ones the notifier
    started with; [identify_lures] stores its argument in [TARGET_DOMAINS]
    and [notify] writes nothing. *)
Theorem queries_keep_precomputed_state (self : LureNotifier) (qs : list query) :
  USER_REPORTS_CHAIN_MAP (run_queries self qs) = USER_REPORTS_CHAIN_MAP self ∧
  TERM_NOTIFICATIONS_MAP (run_queries self qs) = TERM_NOTIFICATIONS_MAP self ∧
  SUBSCRIPTIONS (run_queries self qs) = SUBSCRIPTIONS self ∧
  USER_TO_MANAGER_DICT (run_queries self qs) = USER_TO_MANAGER_DICT self ∧
  (∀ domains,
     (identify_lures self domains).2 = set_TARGET_DOMAINS domains self ∧
     TARGET_DOMAINS (identify_lures self domains).2 = domains) ∧
  (∀ lures, (notify self lures).2 = self).
Proof.
  assert (Hframe : ∀ s,
    USER_REPORTS_CHAIN_MAP (run_queries s qs) = USER_REPORTS_CHAIN_MAP s ∧
    TERM_NOTIFICATIONS_MAP (run_queries s qs) = TERM_NOTIFICATIONS_MAP s ∧
    SUBSCRIPTIONS (run_queries s qs) = SUBSCRIPTIONS s ∧
    USER_TO_MANAGER_DICT (run_queries s qs) = USER_TO_MANAGER_DICT s).
  { unfold run_queries. induction qs as [| q rest IH]; intros s; simpl; [done |].
    destruct (IH (run_query s q)) as (-> & -> & -> & ->).
    by destruct q. }
  destruct (Hframe self) as (H1 & H2 & H3 & H4).
  repeat split; done.
Qed.

(** C8. Adding [U] as a subscriber of [T] to the subscriptions, the chain
    map being the same, keeps every user of every notify-set, that of [T]
    included, and puts [U] into the notify-set of [T]. *)
Theorem adding_subscriber_grows_notify_set
    (chain : gmap string user_set) (subs : pydict (list string)) (U T : string) :
  (∀ T', get_or_empty (_precompute_notifications subs chain) T'
         ⊆ get_or_empty
             (_precompute_notifications (add_subscription U T subs) chain) T') ∧
  U ∈ get_or_empty (_precompute_notifications (add_subscription U T subs) chain) T.
Proof.
  assert (Hkeep : ∀ u t, subscribes subs u t →
                         subscribes (add_subscription U T subs) u t).
  { intros u t (terms & Hin & Ht). unfold add_subscription, subscribes.
    destruct (dict_get U subs) as [old |] eqn:Hold; simpl.
    - rewrite Hold. simpl.
      destruct (dict_set_keeps U (old ++ [T]) u terms subs Hin)
        as [Hthere | [-> Hget]].
      + by exists terms.
      + rewrite Hold in Hget. injection Hget as <-.
        exists (old ++ [T]). split; [| apply elem_of_app; by left].
        apply dict_get_elem, dict_get_set_eq.
    - rewrite dict_get_set_eq. simpl.
      assert (HuU : u ≠ U).
      { intros ->. apply (list_elem_of_fmap_2 fst) in Hin.
        apply (dict_get_is_Some U subs) in Hin as [? ?]. congruence. }
      exists terms. split; [| done].
      destruct (dict_set_keeps U [] u terms subs Hin) as [H1 | [? _]]; [| done].
      destruct (dict_set_keeps U [T] u terms _ H1) as [H2 | [? _]]; done. }
  assert (Hnew : subscribes (add_subscription U T subs) U T).
  { unfold add_subscription, subscribes. eexists. split.
    - apply dict_get_elem, dict_get_set_eq.
    - apply elem_of_app. right. by left. }
  split.
  - intros T' x. rewrite !precompute_get. unfold notified.
    intros (u & Hu & Hx). exists u. split; [by apply Hkeep | done].
  - apply precompute_get. exists U. split; [done | by left].
Qed.

(** C9. Two runs of [notify(identify_lures(domains))] in a row give the same
    result, and leave the notifier as the first run left it; no result
    depends on what [TARGET_DOMAINS] holds. *)
Theorem detect_and_notify_idempotent (self : LureNotifier) (domains : list string) :
  (detect_and_notify (detect_and_notify self domains).2 domains).1
    = (detect_and_notify self domains).1 ∧
  (detect_and_notify (detect_and_notify self domains).2 domains).2
    = (detect_and_notify self domains).2 ∧
  (∀ stored,
     (identify_lures (set_TARGET_DOMAINS stored self) domains).1
       = (identify_lures self domains).1 ∧
     ∀ lures, (notify (set_TARGET_DOMAINS stored self) lures).1
              = (notify self lures).1).
Proof. repeat split. Qed.

(** ** The script's own example *)

Example identify_example :
  identify_loop
    ["paypal-login.appspot.com"; "ciscomail.com"; "cisco.heroku.com"; "apple.com"] []
  = [("paypal-login.appspot.com", ["login"; "paypal"]);
     ("ciscomail.com", ["cisco"; "mail"])].
Proof. vm_compute. reflexivity. Qed.

(** ** Further properties of the reporting-chain map *)

Section ChainMap.

Variable h : pydict string.

Lemma below_cycle_report w :
  below h w w → ∃ v, (v, w) ∈ h ∧ below h v v.
Proof.
  intros Hw. destruct (proj1 (below_reports h w w) Hw) as (v & Hv & [-> | Hwv]).
  - by exists v.
  - exists v. split; [done |]. eapply tc_l; [exact Hv | exact Hwv].
Qed.

Lemma below_has_manager w u : below h w u → w ∈ keys h.
Proof.
  induction 1 as [x y Hxy | x y z Hxy _ _]; by eapply reports_to_key.
Qed.

Lemma gather_loop_cycle rec u :
  rec_cycle h rec →
  ∀ items acc memo, clean h memo →
    (∀ r memo', gather_loop rec u items acc memo = Some (r, memo') →
                clean h memo') ∧
    ((∃ w, (w, u) ∈ items ∧ below h w w) →
     gather_loop rec u items acc memo = None).
Proof.
  intros Hrec. induction items as [| [user manager] rest IH];
    intros acc memo Hclean; simpl.
  - split; [by intros r memo' [= <- <-] |].
    intros (w & Hw & _). by apply elem_of_nil in Hw.
  - destruct (decide (manager = u)) as [-> | Hne].
    + destruct (Hrec user memo Hclean) as [Hnone Hkeep].
      destruct (rec user memo) as [[below1 memo1] |] eqn:Hcall.
      * destruct (IH (acc ∪ {[user]} ∪ below1) memo1 (Hkeep _ _ eq_refl))
          as [IHkeep IHnone].
        split; [done |].
        intros (w & [[= -> ] | Hw]%elem_of_cons & Hcyc).
        -- by specialize (Hnone Hcyc).
        -- apply IHnone. by exists w.
      * split; [done | done].
    + destruct (IH acc memo Hclean) as [IHkeep IHnone].
      split; [done |].
      intros (w & [[= -> ?] | Hw]%elem_of_cons & Hcyc); [done |].
      apply IHnone. by exists w.
Qed.

Lemma gather_subordinates_cycle fuel : rec_cycle h (gather_subordinates fuel h).
Proof.
  induction fuel as [| fuel IH]; intros w memo Hclean; simpl; [done |].
  destruct (memo !! w) as [known |] eqn:Hmemo.
  - split.
    + intros Hcyc. destruct (Hclean w); [by rewrite Hmemo | done].
    + by intros r memo' [= <- <-].
  - destruct (gather_loop_cycle _ w IH h ∅ memo Hclean) as [Hkeep Hnone].
    split.
    + intros Hcyc. rewrite Hnone; [done |]. by apply below_cycle_report.
    + intros r memo'.
      destruct (gather_loop (gather_subordinates fuel h) w h ∅ memo)
        as [[subs memo1] |] eqn:Hloop; [| done].
      intros [= <- <-] k Hk Hcyc.
      destruct (decide (k = w)) as [-> | Hkw].
      * specialize (Hnone (below_cycle_report _ Hcyc)). congruence.
      * rewrite lookup_insert_ne in Hk by done.
        by apply (Hkeep _ _ eq_refl k).
Qed.

Lemma build_loop_cycle fuel users : ∀ memo,
  clean h memo → (∃ u, u ∈ users ∧ below h u u) →
  build_loop fuel h users memo = None.
Proof.
  induction users as [| user rest IH]; intros memo Hclean (u & Hu & Hcyc); simpl.
  - by apply elem_of_nil in Hu.
  - destruct (gather_subordinates_cycle fuel user memo Hclean) as [Hnone Hkeep].
    destruct (gather_subordinates fuel h user memo) as [[subs memo1] |] eqn:Hcall;
      [| done].
    apply elem_of_cons in Hu as [-> | Hu]; [by specialize (Hnone Hcyc) |].
    apply IH; [by eapply Hkeep | by exists u].
Qed.

End ChainMap.

(** X1. When the construction returns, the chain map has an entry for a
    user exactly when the user is a key of the manager map, and each entry
    is exactly the set of the users below its key. *)
Theorem chain_map_exact_on_keys fuel domains subs h n :
  init fuel domains subs h = Some n →
  (∀ u, is_Some (USER_REPORTS_CHAIN_MAP n !! u) ↔ u ∈ keys h) ∧
  (∀ u s, USER_REPORTS_CHAIN_MAP n !! u = Some s → ∀ w, w ∈ s ↔ below h w u).
Proof.
  intros Hrun. destruct (init_sound _ _ _ _ _ Hrun) as (Hdom & Hentries & _).
  assert (Hkeys : ∀ u, is_Some (USER_REPORTS_CHAIN_MAP n !! u) ↔ u ∈ keys h).
  { intros u. rewrite <- elem_of_dom, Hdom. unfold key_set.
    apply elem_of_list_to_set. }
  split; [done |].
  intros u s Hs w.
  destruct (Hentries u) as (s' & Hs' & Hbelow); [apply Hkeys; eauto |].
  rewrite Hs in Hs'. injection Hs' as <-. apply Hbelow.
Qed.

Lemma chain_map_exact_on_keys_witness :
  init 3 [] [] [("B", "A"); ("C", "B")]
    = Some (mkLureNotifier [] [] [("B", "A"); ("C", "B")]
              (<["B" := {["C"]}]> (<["C" := ∅]> ∅)) ∅) ∧
  ("C" ∈ ({["C"]} : gset string) ↔ below [("B", "A"); ("C", "B")] "C" "B").
Proof.
  assert (Hrun : init 3 [] [] [("B", "A"); ("C", "B")]
    = Some (mkLureNotifier [] [] [("B", "A"); ("C", "B")]
              (<["B" := {["C"]}]> (<["C" := ∅]> ∅)) ∅))
    by (vm_compute; reflexivity).
  split; [exact Hrun |].
  destruct (chain_map_exact_on_keys _ _ _ _ _ Hrun) as [_ Hentries].
  apply (Hentries "B" {["C"]}). by_compute.
Defined.

(** X2. Each entry of the chain map is made of the direct reports of its
    key and of the entries of those reports, every direct report having an
    entry of its own; a key to which nobody reports has the empty entry. *)
Theorem chain_entry_unfolds fuel domains subs h n u s :
  init fuel domains subs h = Some n →
  USER_REPORTS_CHAIN_MAP n !! u = Some s →
  (∀ w, reports_to h w u → is_Some (USER_REPORTS_CHAIN_MAP n !! w)) ∧
  (∀ x, x ∈ s ↔
     ∃ w sw, reports_to h w u ∧ USER_REPORTS_CHAIN_MAP n !! w = Some sw ∧
             (x = w ∨ x ∈ sw)) ∧
  ((∀ w, ¬ reports_to h w u) → s = ∅).
Proof.
  intros Hrun Hs. destruct (init_sound _ _ _ _ _ Hrun) as (Hdom & Hentries & _).
  assert (Hu : ∀ w, w ∈ s ↔ below h w u).
  { destruct (Hentries u) as (s' & Hs' & Hbelow).
    - assert (Hk : u ∈ key_set h) by (rewrite <- Hdom; apply elem_of_dom; eauto).
      unfold key_set in Hk. by apply elem_of_list_to_set in Hk.
    - rewrite Hs in Hs'. by injection Hs' as <-. }
  assert (Hreports : ∀ w, reports_to h w u →
            ∃ sw, USER_REPORTS_CHAIN_MAP n !! w = Some sw ∧
                  ∀ x, x ∈ sw ↔ below h x w).
  { intros w Hw. apply Hentries. by eapply reports_to_key. }
  split; [intros w Hw; destruct (Hreports w Hw) as (sw & -> & _); eauto |].
  split.
  - intros x. rewrite Hu, below_reports. split.
    + intros (w & Hw & Hx). destruct (Hreports w Hw) as (sw & Hsw & Hbelow).
      exists w, sw. rewrite Hbelow. done.
    + intros (w & sw & Hw & Hsw & Hx). exists w. split; [done |].
      destruct (Hreports w Hw) as (sw' & Hsw' & Hbelow).
      rewrite Hsw in Hsw'. injection Hsw' as <-. by rewrite <- Hbelow.
  - intros Hleaf. apply set_eq. intros x. rewrite Hu, below_reports.
    split; [| set_solver]. intros (w & Hw & _). by destruct (Hleaf w).
Qed.

Lemma chain_entry_unfolds_witness :
  "C" ∈ ({["C"]} : gset string) ↔
  ∃ w sw, reports_to [("B", "A"); ("C", "B")] w "B" ∧
    (<["B" := {["C"]}]> (<["C" := ∅]> ∅) : gmap string user_set) !! w = Some sw ∧
    ("C" = w ∨ "C" ∈ sw).
Proof.
  assert (Hrun : init 3 [] [] [("B", "A"); ("C", "B")]
    = Some (mkLureNotifier [] [] [("B", "A"); ("C", "B")]
              (<["B" := {["C"]}]> (<["C" := ∅]> ∅)) ∅))
    by (vm_compute; reflexivity).
  assert (Hs : USER_REPORTS_CHAIN_MAP
                 (mkLureNotifier [] [] [("B", "A"); ("C", "B")]
                    (<["B" := {["C"]}]> (<["C" := ∅]> ∅)) ∅) !! "B"
               = Some {["C"]}) by by_compute.
  exact (proj1 (proj2 (chain_entry_unfolds _ _ _ _ _ _ _ Hrun Hs)) "C").
Defined.

(** X3. In an acyclic hierarchy no user is in their own chain entry, nor is
    the manager of a user in that user's entry; in any hierarchy every
    member of a chain entry is a key of the manager map. *)
Theorem chain_entry_excludes_self_and_manager fuel domains subs h n u s :
  acyclic h →
  init fuel domains subs h = Some n →
  USER_REPORTS_CHAIN_MAP n !! u = Some s →
  (u ∉ s) ∧ (∀ m, reports_to h u m → m ∉ s) ∧ (∀ w, w ∈ s → w ∈ keys h).
Proof.
  intros Hacyc Hrun Hs.
  destruct (init_sound _ _ _ _ _ Hrun) as (Hdom & Hentries & _).
  assert (Hu : ∀ w, w ∈ s ↔ below h w u).
  { destruct (Hentries u) as (s' & Hs' & Hbelow).
    - assert (Hk : u ∈ key_set h) by (rewrite <- Hdom; apply elem_of_dom; eauto).
      unfold key_set in Hk. by apply elem_of_list_to_set in Hk.
    - rewrite Hs in Hs'. by injection Hs' as <-. }
  split; [rewrite Hu; apply Hacyc |]. split.
  - intros m Hm. rewrite Hu. intros Hmu. apply (Hacyc u).
    eapply tc_l; [exact Hm | exact Hmu].
  - intros w Hw. apply Hu in Hw. by eapply below_has_manager.
Qed.

Lemma chain_entry_excludes_self_and_manager_witness :
  acyclic [("B", "A"); ("C", "B")] ∧
  ("B" ∉ ({["C"]} : gset string)) ∧
  (∀ m, reports_to [("B", "A"); ("C", "B")] "B" m → m ∉ ({["C"]} : gset string)).
Proof.
  split; [exact example_hierarchy_acyclic |].
  assert (Hrun : init 3 [] [] [("B", "A"); ("C", "B")]
    = Some (mkLureNotifier [] [] [("B", "A"); ("C", "B")]
              (<["B" := {["C"]}]> (<["C" := ∅]> ∅)) ∅))
    by (vm_compute; reflexivity).
  assert (Hs : USER_REPORTS_CHAIN_MAP
                 (mkLureNotifier [] [] [("B", "A"); ("C", "B")]
                    (<["B" := {["C"]}]> (<["C" := ∅]> ∅)) ∅) !! "B"
               = Some {["C"]}) by by_compute.
  destruct (chain_entry_excludes_self_and_manager _ _ _ _ _ _ _
              example_hierarchy_acyclic Hrun Hs) as (Hself & Hmgr & _).
  split; [exact Hself | exact Hmgr].
Defined.

(** X4. When some user is their own transitive manager the construction
    never returns, whatever the fuel: the recursion of
    [gather_subordinates] goes round the cycle without end. *)
Theorem cyclic_hierarchy_never_constructs fuel domains subs h :
  (∃ u, below h u u) → init fuel domains subs h = None.
Proof.
  intros (u & Hcyc). unfold init, _build_user_reports_chain_map.
  rewrite (build_loop_cycle h fuel (keys h) ∅); [done | |].
  - intros k Hk. rewrite lookup_empty in Hk. by destruct Hk.
  - exists u. split; [by eapply below_has_manager | done].
Qed.

Lemma cyclic_hierarchy_never_constructs_witness :
  (∃ u, below [("A", "C"); ("B", "A"); ("C", "B")] u u) ∧
  init 100 [] [] [("A", "C"); ("B", "A"); ("C", "B")] = None.
Proof.
  assert (Hcyc : ∃ u, below [("A", "C"); ("B", "A"); ("C", "B")] u u).
  { exists "A". eapply tc_l; [| eapply tc_l; [| apply tc_once]].
    - left.
    - right. right. left.
    - right. left. }
  split; [exact Hcyc |].
  by apply cyclic_hierarchy_never_constructs.
Defined.

(** ** Further properties of the term-notification map *)

Lemma precompute_lookup chain subs t s :
  _precompute_notifications subs chain !! t = Some s →
  ∀ x, x ∈ s ↔ notified chain subs t x.
Proof.
  intros Hs x. rewrite <- precompute_get. unfold get_or_empty. by rewrite Hs.
Qed.

(** X5. The keys of the term-notification map are exactly the terms that
    somebody subscribes to, whether or not they are vocabulary terms; the
    notify-set of a term is never empty, since it holds each subscriber of
    the term, in the hierarchy or not. *)
Theorem term_map_keys_are_subscribed_terms
    (chain : gmap string user_set) (subs : pydict (list string)) (t : string) :
  (is_Some (_precompute_notifications subs chain !! t) ↔
   ∃ u, subscribes subs u t) ∧
  (∀ s, _precompute_notifications subs chain !! t = Some s →
        s ≠ ∅ ∧ ∀ u, subscribes subs u t → u ∈ s).
Proof.
  split; [rewrite <- elem_of_dom; apply precompute_dom |].
  intros s Hs.
  assert (Hin : ∀ u, subscribes subs u t → u ∈ s).
  { intros u Hu. apply (precompute_lookup _ _ _ _ Hs). exists u. split; [done | by left]. }
  split; [| done].
  assert (Hsome : ∃ u, subscribes subs u t)
    by (apply (proj1 (precompute_dom chain subs t)), elem_of_dom; eauto).
  destruct Hsome as [u Hu]. specialize (Hin u Hu). set_solver.
Qed.

Lemma term_map_keys_are_subscribed_terms_witness :
  _precompute_notifications [("Z", ["bitcoin"])] ∅ !! "bitcoin" = Some {["Z"]} ∧
  ({["Z"]} : gset string) ≠ ∅.
Proof.
  assert (Hs : _precompute_notifications [("Z", ["bitcoin"])] ∅ !! "bitcoin"
               = Some {["Z"]}) by by_compute.
  split; [exact Hs |].
  exact (proj1 (proj2 (term_map_keys_are_subscribed_terms ∅ [("Z", ["bitcoin"])]
                         "bitcoin") {["Z"]} Hs)).
Defined.

(** X6. In a constructed notifier a user is in the notify-set of a term
    exactly when the user subscribes to the term, or is below a subscriber
    of the term who is a key of the manager map: nobody else is ever in a
    notify-set. *)
Theorem notify_set_members fuel domains subs h n t x :
  init fuel domains subs h = Some n →
  x ∈ get_or_empty (TERM_NOTIFICATIONS_MAP n) t ↔
  ∃ u, subscribes subs u t ∧ (x = u ∨ (u ∈ keys h ∧ below h x u)).
Proof.
  intros Hrun. destruct (init_sound _ _ _ _ _ Hrun) as (_ & _ & _ & Hsets).
  apply Hsets.
Qed.

Lemma notify_set_members_witness :
  "C" ∈ get_or_empty
          (_precompute_notifications [("B", ["mail"])]
             (<["B" := {["C"]}]> (<["C" := ∅]> ∅))) "mail" ↔
  ∃ u, subscribes [("B", ["mail"])] u "mail" ∧
       ("C" = u ∨ (u ∈ keys [("B", "A"); ("C", "B")] ∧
                   below [("B", "A"); ("C", "B")] "C" u)).
Proof.
  assert (Hrun : init 3 [] [("B", ["mail"])] [("B", "A"); ("C", "B")]
    = Some (mkLureNotifier [] [("B", ["mail"])] [("B", "A"); ("C", "B")]
              (<["B" := {["C"]}]> (<["C" := ∅]> ∅))
              (_precompute_notifications [("B", ["mail"])]
                 (<["B" := {["C"]}]> (<["C" := ∅]> ∅)))))
    by (vm_compute; reflexivity).
  exact (notify_set_members _ _ _ _ _ "mail" "C" Hrun).
Defined.

(** X7. The term-notification map depends on the subscriptions only through
    who subscribes to what: the order of the users, the order of the terms
    of a user and repeated terms make no difference. *)
Theorem term_map_ignores_order_and_repeats
    (chain : gmap string user_set) (subs subs' : pydict (list string)) :
  (∀ u t, subscribes subs u t ↔ subscribes subs' u t) →
  _precompute_notifications subs chain = _precompute_notifications subs' chain.
Proof.
  intros Hsame. apply map_eq. intros t.
  assert (Hnot : ∀ x, notified chain subs t x ↔ notified chain subs' t x).
  { intros x. unfold notified. split; intros (u & Hu & Hx); exists u;
      (split; [by apply Hsame | done]). }
  assert (Hdom : is_Some (_precompute_notifications subs chain !! t) ↔
                 is_Some (_precompute_notifications subs' chain !! t)).
  { rewrite <- !elem_of_dom, !precompute_dom.
    split; intros (u & Hu); exists u; by apply Hsame. }
  destruct (_precompute_notifications subs chain !! t) as [s |] eqn:Hs;
    destruct (_precompute_notifications subs' chain !! t) as [s' |] eqn:Hs'.
  - f_equal. apply set_eq. intros x.
    rewrite (precompute_lookup _ _ _ _ Hs), (precompute_lookup _ _ _ _ Hs').
    apply Hnot.
  - destruct (proj1 Hdom) as [? ?]; [eauto | done].
  - destruct (proj2 Hdom) as [? ?]; [eauto | done].
  - done.
Qed.

Lemma term_map_ignores_order_and_repeats_witness :
  _precompute_notifications [("A", ["mail"; "cisco"; "mail"]); ("B", ["mail"])] ∅
  = _precompute_notifications [("B", ["mail"]); ("A", ["cisco"; "mail"])] ∅.
Proof.
  apply term_map_ignores_order_and_repeats.
  intros u t. unfold subscribes. split.
  - intros (terms & Hin & Ht).
    apply elem_of_cons in Hin as [[= -> ->] | Hin].
    + exists ["cisco"; "mail"]. split; [right; left | set_solver].
    + apply list_elem_of_singleton in Hin as [= -> ->].
      exists ["mail"]. split; [left | exact Ht].
  - intros (terms & Hin & Ht).
    apply elem_of_cons in Hin as [[= -> ->] | Hin].
    + exists ["mail"]. split; [right; left | exact Ht].
    + apply list_elem_of_singleton in Hin as [= -> ->].
      exists ["mail"; "cisco"; "mail"]. split; [left | set_solver].
Defined.

(** ** Further properties of lure detection *)

Lemma append_assoc (a b c : string) : (a +:+ b) +:+ c = a +:+ (b +:+ c).
Proof.
  induction a as [| x a IH]; [done |]. by rewrite !append_cons, IH.
Qed.

Lemma append_nil_r (a : string) : a +:+ "" = a.
Proof. induction a as [| x a IH]; [done |]. by rewrite append_cons, IH. Qed.

Lemma substring_of_trans t s r :
  substring_of t s → substring_of s r → substring_of t r.
Proof.
  intros (pre & post & ->) (pre' & post' & ->).
  exists (pre' +:+ pre), (post +:+ post'). by rewrite !append_assoc.
Qed.

Lemma lower_char_idem c : lower_char (lower_char c) = lower_char c.
Proof. destruct c as [[] [] [] [] [] [] [] []]; reflexivity. Qed.

Lemma lower_idem s : lower (lower s) = lower s.
Proof.
  induction s as [| c s IH]; [done |]. simpl. by rewrite lower_char_idem, IH.
Qed.

Lemma identify_lures_filter self domains :
  (identify_lures self domains).1
  = (λ domain, (domain, matched_terms (lower domain)))
      <$> List.filter qualifies domains.
Proof. simpl. by rewrite identify_loop_spec. Qed.

(** X8. Detection works domain by domain: the lures of a list made of two
    parts are the lures of the first part followed by those of the second. *)
Theorem identify_lures_app (self : LureNotifier) (ds1 ds2 : list string) :
  (identify_lures self (ds1 ++ ds2)).1
  = (identify_lures self ds1).1 ++ (identify_lures self ds2).1.
Proof.
  rewrite !identify_lures_filter, List.filter_app. apply fmap_app.
Qed.

(** X9. Detection does not depend on letter case: lower-casing every input
    domain first changes nothing but the spelling of the recorded domains. *)
Theorem identify_lures_ignores_case (self : LureNotifier) (domains : list string) :
  (identify_lures self (lower <$> domains)).1
  = (λ l : lure, (lower l.1, l.2)) <$> (identify_lures self domains).1.
Proof.
  rewrite !identify_lures_filter.
  induction domains as [| d rest IH]; [done |].
  cbn [fmap list_fmap List.filter] in *.
  assert (Hq : qualifies (lower d) = qualifies d)
    by (unfold qualifies; by rewrite lower_idem).
  rewrite Hq. destruct (qualifies d); [| exact IH].
  cbn [fmap list_fmap]. rewrite lower_idem. f_equal. exact IH.
Qed.

(** X10. Every vocabulary match of "gmail" is also a match of "mail": an
    input domain that contains "gmail", in any letter case, is always
    reported as a lure, with both terms. *)
Theorem gmail_domain_is_always_a_lure (self : LureNotifier)
    (domains : list string) (D : string) :
  D ∈ domains → substring_of "gmail" (lower D) →
  ∃ terms, (D, terms) ∈ (identify_lures self domains).1 ∧
           "gmail" ∈ terms ∧ "mail" ∈ terms.
Proof.
  intros HD Hgmail.
  assert (Hmail : substring_of "mail" (lower D)).
  { apply (substring_of_trans _ "gmail"); [| done]. by exists "g", "". }
  assert (Hlure : is_lure D).
  { exists "gmail", "mail". repeat split; [done | by_compute | by_compute | done | done]. }
  exists (matched_terms (lower D)). split.
  - rewrite identify_lures_filter.
    apply (list_elem_of_fmap_2 (λ domain, (domain, matched_terms (lower domain)))).
    apply list_elem_of_In, filter_In. split; [by apply list_elem_of_In |].
    by apply qualifies_spec.
  - split; apply matched_terms_elem; (split; [by_compute | done]).
Qed.

Lemma gmail_domain_is_always_a_lure_witness :
  ("Gmail.com", ["gmail"; "mail"])
    ∈ (identify_lures (mkLureNotifier [] [] [] ∅ ∅) ["apple.com"; "Gmail.com"]).1.
Proof.
  destruct (gmail_domain_is_always_a_lure (mkLureNotifier [] [] [] ∅ ∅)
              ["apple.com"; "Gmail.com"] "Gmail.com")
    as (terms & Hin & _).
  - right. left.
  - by exists "", ".com".
  - apply elem_of_cons in Hin as [[= ->] | Hin]; [left |].
    by apply elem_of_nil in Hin.
Defined.

(** ** Detection followed by notification *)

Lemma notify_loop_get_inv tm lures : ∀ acc d users,
  dict_get d (notify_loop tm lures acc) = Some users →
  dict_get d acc = Some users ∨
  ∃ terms, (d, terms) ∈ lures ∧ users = elements (users_for tm terms).
Proof.
  induction lures as [| [domain terms] rest IH]; intros acc d users Hget;
    simpl in Hget; [by left |].
  destruct (IH _ _ _ Hget) as [Hacc | (terms' & Hin & ->)].
  - destruct (decide (domain = d)) as [-> | Hne].
    + rewrite dict_get_set_eq in Hacc. injection Hacc as <-.
      right. exists terms. split; [by left | done].
    + rewrite dict_get_set_ne in Hacc by done. by left.
  - right. exists terms'. split; [by right | done].
Qed.

(** X11. For a constructed notifier, [notify(identify_lures(domains))] has
    an entry exactly for the input domains that are lures, and the users of
    an entry are, without repetition, exactly those who subscribe to a
    vocabulary term found in the domain or are below such a subscriber who
    is a key of the manager map. A subscription to a term outside the
    vocabulary notifies nobody. *)
Theorem detect_and_notify_spec fuel stored subs h n (domains : list string) :
  init fuel stored subs h = Some n →
  NoDup (keys (detect_and_notify n domains).1) ∧
  (∀ d, d ∈ keys (detect_and_notify n domains).1 ↔ d ∈ domains ∧ is_lure d) ∧
  (∀ d users, dict_get d (detect_and_notify n domains).1 = Some users →
     NoDup users ∧
     ∀ x, x ∈ users ↔
       ∃ t u, t ∈ TERMS ∧ substring_of t (lower d) ∧ subscribes subs u t ∧
              (x = u ∨ (u ∈ keys h ∧ below h x u))).
Proof.
  intros Hrun. destruct (init_sound _ _ _ _ _ Hrun) as (_ & _ & _ & Hsets).
  assert (Hres : (detect_and_notify n domains).1
                 = notify_loop (TERM_NOTIFICATIONS_MAP n)
                     (identify_lures n domains).1 []) by done.
  rewrite Hres, identify_lures_filter.
  set (lures := (λ domain, (domain, matched_terms (lower domain)))
                  <$> List.filter qualifies domains).
  assert (Hfst : lures.*1 = List.filter qualifies domains).
  { unfold lures. rewrite <- list_fmap_compose. apply list_fmap_id. }
  split; [apply notify_loop_NoDup, NoDup_nil_2 |]. split.
  - intros d. rewrite notify_loop_keys, Hfst. split.
    + intros [Hd | Hd]; [by apply elem_of_nil in Hd |].
      apply list_elem_of_In, filter_In in Hd as [Hd Hq].
      split; [by apply list_elem_of_In | by apply qualifies_spec].
    + intros [Hd Hq]. right. apply list_elem_of_In, filter_In.
      split; [by apply list_elem_of_In | by apply qualifies_spec].
  - intros d users Hget.
    apply notify_loop_get_inv in Hget as [Hget | (terms & Hin & ->)]; [done |].
    split; [apply NoDup_elements |].
    apply list_elem_of_fmap in Hin as (d' & [= <- ->] & _).
    intros x. rewrite elem_of_elements, users_for_spec. split.
    + intros (t & Ht & Hx). apply matched_terms_elem in Ht as [Ht Hsub].
      apply Hsets in Hx as (u & Hu & Hx). by exists t, u.
    + intros (t & u & Ht & Hsub & Hu & Hx). exists t.
      split; [by apply matched_terms_elem |]. apply Hsets. by exists u.
Qed.

Lemma detect_and_notify_spec_witness :
  ∃ users,
    dict_get "ciscomail.com"
      (detect_and_notify
         (mkLureNotifier [] [("B", ["mail"])] [("B", "A"); ("C", "B")]
            (<["B" := {["C"]}]> (<["C" := ∅]> ∅))
            (_precompute_notifications [("B", ["mail"])]
               (<["B" := {["C"]}]> (<["C" := ∅]> ∅))))
         ["ciscomail.com"]).1 = Some users ∧
    NoDup users ∧ "C" ∈ users.
Proof.
  assert (Hrun : init 3 [] [("B", ["mail"])] [("B", "A"); ("C", "B")]
    = Some (mkLureNotifier [] [("B", ["mail"])] [("B", "A"); ("C", "B")]
              (<["B" := {["C"]}]> (<["C" := ∅]> ∅))
              (_precompute_notifications [("B", ["mail"])]
                 (<["B" := {["C"]}]> (<["C" := ∅]> ∅)))))
    by (vm_compute; reflexivity).
  destruct (detect_and_notify_spec _ _ _ _ _ ["ciscomail.com"] Hrun)
    as (_ & _ & Hentries).
  destruct (dict_get "ciscomail.com"
      (detect_and_notify
         (mkLureNotifier [] [("B", ["mail"])] [("B", "A"); ("C", "B")]
            (<["B" := {["C"]}]> (<["C" := ∅]> ∅))
            (_precompute_notifications [("B", ["mail"])]
               (<["B" := {["C"]}]> (<["C" := ∅]> ∅))))
         ["ciscomail.com"]).1) as [users |] eqn:Hget;
    [| by vm_compute in Hget].
  exists users. split; [reflexivity |].
  destruct (Hentries _ _ Hget) as [Hnd Hmem]. split; [exact Hnd |].
  apply Hmem. exists "mail", "B". split; [by_compute |].
  split; [by exists "cisco", ".com" |].
  split; [exists ["mail"]; split; by left |].
  right. split; [left |]. apply tc_once. right. left.
Defined.

(** ** The loaders *)

Lemma dict_get_of_elem {V} (k : string) (v : V) (d : pydict V) :
  NoDup (keys d) → (k, v) ∈ d → dict_get k d = Some v.
Proof.
  unfold keys. induction d as [| [k' v'] d IH]; simpl; [by intros _ ?%elem_of_nil |].
  intros [Hfresh Hnd]%NoDup_cons [[= -> ->] | Hin]%elem_of_cons.
  - by rewrite decide_True.
  - rewrite decide_False; [by apply IH |].
    intros ->. apply Hfresh. by apply (list_elem_of_fmap_2 fst) in Hin.
Qed.

Lemma values_of_snoc u pairs u' t :
  values_of u (pairs ++ [(u', t)])
  = values_of u pairs ++ (if decide (u' = u) then [t] else []).
Proof.
  unfold values_of. rewrite List.filter_app, fmap_app. simpl.
  destruct (decide (u' = u)) as [-> | Hne].
  - by rewrite bool_decide_true.
  - by rewrite bool_decide_false.
Qed.

Lemma values_of_elem u t pairs : t ∈ values_of u pairs ↔ (u, t) ∈ pairs.
Proof.
  unfold values_of. rewrite list_elem_of_fmap. split.
  - intros ([u' t'] & -> & Hin). apply list_elem_of_In, filter_In in Hin as [Hin Hu].
    apply bool_decide_eq_true in Hu. simpl in Hu. subst u'.
    by apply list_elem_of_In.
  - intros Hin. exists (u, t). split; [done |].
    apply list_elem_of_In, filter_In. split; [by apply list_elem_of_In |].
    by apply bool_decide_eq_true.
Qed.

Lemma add_subscription_get u t subs u' :
  dict_get u' (add_subscription u t subs)
  = if decide (u' = u) then Some (default [] (dict_get u subs) ++ [t])
    else dict_get u' subs.
Proof.
  unfold add_subscription.
  destruct (dict_get u subs) as [old |] eqn:Hold; simpl.
  - rewrite Hold. simpl. destruct (decide (u' = u)) as [-> | Hne].
    + apply dict_get_set_eq.
    + by rewrite dict_get_set_ne.
  - rewrite dict_get_set_eq. simpl. destruct (decide (u' = u)) as [-> | Hne].
    + apply dict_get_set_eq.
    + by rewrite !dict_get_set_ne.
Qed.

Lemma add_subscription_NoDup u t subs :
  NoDup (keys subs) → NoDup (keys (add_subscription u t subs)).
Proof.
  intros Hnd. unfold add_subscription.
  destruct (dict_get u subs); by repeat apply keys_dict_set_NoDup.
Qed.

Lemma add_subscription_inv u t subs pairs :
  subscriptions_inv subs pairs →
  subscriptions_inv (add_subscription u t subs) (pairs ++ [(u, t)]).
Proof.
  intros [Hnd Hget]. split; [by apply add_subscription_NoDup |].
  intros u'. rewrite add_subscription_get, values_of_snoc.
  destruct (decide (u' = u)) as [-> | Hne].
  - rewrite decide_True by done. rewrite Hget.
    destruct (values_of u pairs) as [| t0 ts]; done.
  - rewrite decide_False by done. by rewrite app_nil_r.
Qed.

Lemma subscriptions_loop_spec entries : ∀ subs pairs,
  subscriptions_inv subs pairs →
  match subscriptions_loop entries subs with
  | Some result =>
      Forall (λ e, is_Some (entry_fields "term" e)) entries ∧
      subscriptions_inv result (pairs ++ decoded "term" entries)
  | None => Exists (λ e, entry_fields "term" e = None) entries
  end.
Proof.
  unfold decoded.
  induction entries as [| entry rest IH]; intros subs pairs Hinv;
    cbn -[entry_fields].
  - split; [constructor | by rewrite app_nil_r].
  - destruct (dict_get "id" entry) as [user_id |] eqn:Hid;
      [| left; unfold entry_fields; by rewrite Hid].
    destruct (dict_get "term" entry) as [term |] eqn:Hterm;
      [| left; unfold entry_fields; by rewrite Hid, Hterm].
    assert (Hfields : entry_fields "term" entry = Some (user_id, term))
      by (unfold entry_fields; by rewrite Hid, Hterm).
    rewrite Hfields.
    specialize (IH _ _ (add_subscription_inv user_id term _ _ Hinv)).
    destruct (subscriptions_loop rest (add_subscription user_id term subs)).
    + destruct IH as [Hall Hres]. split; [constructor; eauto |].
      by rewrite <- app_assoc in Hres.
    + by right.
Qed.

(** X12. [load_user_subscriptions] fails exactly when some line lacks the
    field [id] or [term]. Otherwise it returns a dictionary with one item
    per user, holding the terms of the user's lines in line order (repeats
    kept): a user subscribes to a term in it exactly when some line says
    so. *)
Theorem load_user_subscriptions_spec (entries : list (pydict string)) :
  (is_Some (load_user_subscriptions entries) ↔
   Forall (λ e, is_Some (entry_fields "term" e)) entries) ∧
  (∀ subs, load_user_subscriptions entries = Some subs →
     NoDup (keys subs) ∧
     (∀ u ts, dict_get u subs = Some ts ↔
              ts = values_of u (decoded "term" entries) ∧ ts ≠ []) ∧
     (∀ u t, subscribes subs u t ↔ (u, t) ∈ decoded "term" entries)).
Proof.
  unfold load_user_subscriptions.
  assert (Hstart : subscriptions_inv [] []).
  { split; [apply NoDup_nil_2 | done]. }
  pose proof (subscriptions_loop_spec entries [] [] Hstart) as Hloop.
  destruct (subscriptions_loop entries []) as [result |].
  - destruct Hloop as [Hall [Hnd Hget]]. simpl in Hget.
    split; [split; eauto |].
    intros subs [= <-].
    assert (Hentry : ∀ u ts, dict_get u result = Some ts ↔
              ts = values_of u (decoded "term" entries) ∧ ts ≠ []).
    { intros u ts. rewrite Hget.
      destruct (values_of u (decoded "term" entries)) as [| t0 rest];
        naive_solver. }
    split; [done |]. split; [done |].
    intros u t. rewrite <- values_of_elem. unfold subscribes. split.
    + intros (terms & Hin & Ht).
      apply (dict_get_of_elem _ _ _ Hnd), Hentry in Hin as [-> _]. done.
    + intros Ht. exists (values_of u (decoded "term" entries)).
      split; [| done]. apply dict_get_elem, Hentry. split; [done |].
      intros Hnil. rewrite Hnil in Ht. by apply elem_of_nil in Ht.
  - split; [| done]. split; [by intros [? ?] |].
    intros Hall. exfalso. apply Exists_exists in Hloop as (e & He & Hnone).
    rewrite Forall_forall in Hall. destruct (Hall e He) as [? ?]. congruence.
Qed.

Lemma load_user_subscriptions_spec_witness :
  load_user_subscriptions
    [[("id", "A"); ("term", "mail")]; [("id", "B"); ("term", "cisco")];
     [("id", "A"); ("term", "login")]]
  = Some [("A", ["mail"; "login"]); ("B", ["cisco"])] ∧
  subscribes [("A", ["mail"; "login"]); ("B", ["cisco"])] "A" "login".
Proof.
  assert (Hrun : load_user_subscriptions
    [[("id", "A"); ("term", "mail")]; [("id", "B"); ("term", "cisco")];
     [("id", "A"); ("term", "login")]]
    = Some [("A", ["mail"; "login"]); ("B", ["cisco"])])
    by (vm_compute; reflexivity).
  split; [exact Hrun |].
  destruct (load_user_subscriptions_spec
    [[("id", "A"); ("term", "mail")]; [("id", "B"); ("term", "cisco")];
     [("id", "A"); ("term", "login")]]) as [_ Hspec].
  destruct (Hspec _ Hrun) as (_ & _ & Hsub).
  apply Hsub. vm_compute. right. right. left.
Defined.

Lemma hierarchy_loop_spec entries : ∀ h pairs,
  hierarchy_inv h pairs →
  match hierarchy_loop entries h with
  | Some result =>
      Forall (λ e, is_Some (entry_fields "reports_to" e)) entries ∧
      hierarchy_inv result (pairs ++ decoded "reports_to" entries)
  | None => Exists (λ e, entry_fields "reports_to" e = None) entries
  end.
Proof.
  unfold decoded.
  induction entries as [| entry rest IH]; intros h pairs Hinv;
    cbn -[entry_fields].
  - split; [constructor | by rewrite app_nil_r].
  - destruct (dict_get "id" entry) as [user_id |] eqn:Hid;
      [| left; unfold entry_fields; by rewrite Hid].
    destruct (dict_get "reports_to" entry) as [manager_id |] eqn:Hmgr;
      [| left; unfold entry_fields; by rewrite Hid, Hmgr].
    assert (Hfields : entry_fields "reports_to" entry = Some (user_id, manager_id))
      by (unfold entry_fields; by rewrite Hid, Hmgr).
    rewrite Hfields.
    assert (Hstep : hierarchy_inv (dict_set user_id manager_id h)
                      (pairs ++ [(user_id, manager_id)])).
    { destruct Hinv as [Hnd Hget]. split; [by apply keys_dict_set_NoDup |].
      intros u. rewrite values_of_snoc.
      destruct (decide (user_id = u)) as [-> | Hne].
      - by rewrite dict_get_set_eq, last_snoc.
      - by rewrite dict_get_set_ne, app_nil_r. }
    specialize (IH _ _ Hstep).
    destruct (hierarchy_loop rest (dict_set user_id manager_id h)).
    + destruct IH as [Hall Hres]. split; [constructor; eauto |].
      by rewrite <- app_assoc in Hres.
    + by right.
Qed.

(** X13. [load_user_to_manager_map] fails exactly when some line lacks the
    field [id] or [reports_to]. Otherwise it returns a dictionary in which
    each user of the lines has one manager, the one of the user's last
    line: earlier lines of the same user are overwritten. *)
Theorem load_user_to_manager_map_spec (entries : list (pydict string)) :
  (is_Some (load_user_to_manager_map entries) ↔
   Forall (λ e, is_Some (entry_fields "reports_to" e)) entries) ∧
  (∀ h, load_user_to_manager_map entries = Some h →
     NoDup (keys h) ∧
     (∀ w u, reports_to h w u ↔
             last (values_of w (decoded "reports_to" entries)) = Some u) ∧
     (∀ w u u', reports_to h w u → reports_to h w u' → u = u')).
Proof.
  unfold load_user_to_manager_map.
  assert (Hstart : hierarchy_inv [] []).
  { split; [apply NoDup_nil_2 | done]. }
  pose proof (hierarchy_loop_spec entries [] [] Hstart) as Hloop.
  destruct (hierarchy_loop entries []) as [result |].
  - destruct Hloop as [Hall [Hnd Hget]]. simpl in Hget.
    split; [split; eauto |].
    intros h [= <-].
    assert (Hrep : ∀ w u, reports_to result w u ↔
              last (values_of w (decoded "reports_to" entries)) = Some u).
    { intros w u. rewrite <- Hget. unfold reports_to. split.
      - by apply dict_get_of_elem.
      - apply dict_get_elem. }
    split; [done |]. split; [done |].
    intros w u u' Hu Hu'. apply Hrep in Hu, Hu'. congruence.
  - split; [| done]. split; [by intros [? ?] |].
    intros Hall. exfalso. apply Exists_exists in Hloop as (e & He & Hnone).
    rewrite Forall_forall in Hall. destruct (Hall e He) as [? ?]. congruence.
Qed.

Lemma load_user_to_manager_map_spec_witness :
  load_user_to_manager_map
    [[("id", "B"); ("reports_to", "A")]; [("id", "C"); ("reports_to", "B")];
     [("id", "B"); ("reports_to", "D")]]
  = Some [("B", "D"); ("C", "B")] ∧
  reports_to [("B", "D"); ("C", "B")] "B" "D".
Proof.
  assert (Hrun : load_user_to_manager_map
    [[("id", "B"); ("reports_to", "A")]; [("id", "C"); ("reports_to", "B")];
     [("id", "B"); ("reports_to", "D")]]
    = Some [("B", "D"); ("C", "B")]) by (vm_compute; reflexivity).
  split; [exact Hrun |].
  destruct (load_user_to_manager_map_spec
    [[("id", "B"); ("reports_to", "A")]; [("id", "C"); ("reports_to", "B")];
     [("id", "B"); ("reports_to", "D")]]) as [_ Hspec].
  destruct (Hspec _ Hrun) as (_ & Hrep & _).
  apply Hrep. vm_compute. reflexivity.
Defined.

(** ** Reading the domains file *)

Lemma one_line_snoc line c :
  one_line line = true → is_linebreak c = false →
  one_line (line +:+ String c "") = true.
Proof.
  intros Hline Hc. induction line as [| a line IH].
  - rewrite append_nil. simpl. by rewrite Hc.
  - rewrite append_cons. simpl in *.
    apply andb_true_iff in Hline as [Ha Hline]. by rewrite Ha, IH.
Qed.

Lemma splitlines_from_one_line s : ∀ after_cr line,
  one_line line = true →
  Forall (λ l, one_line l = true) (splitlines_from after_cr line s).
Proof.
  induction s as [| c s IH]; intros after_cr line Hline; simpl.
  - destruct (decide (line = "")); repeat constructor. done.
  - destruct (after_cr && bool_decide (c = "010"%char)); [by apply IH |].
    destruct (is_linebreak c) eqn:Hc.
    + constructor; [done | by apply IH].
    + by apply IH, one_line_snoc.
Qed.

Lemma splitlines_from_LF line r :
  splitlines_from false line (String "010"%char r)
  = line :: splitlines_from false "" r.
Proof. reflexivity. Qed.

Lemma splitlines_from_char line c r :
  is_linebreak c = false →
  splitlines_from false line (String c r)
  = splitlines_from false (line +:+ String c "") r.
Proof. intros Hc. simpl. by rewrite Hc. Qed.

Lemma append_snoc_cons line c l : (line +:+ String c "") +:+ l = line +:+ String c l.
Proof. by rewrite append_assoc, append_cons, append_nil. Qed.

Lemma splitlines_from_line l : ∀ line r,
  one_line l = true →
  splitlines_from false line (l +:+ String "010"%char r)
  = (line +:+ l) :: splitlines_from false "" r.
Proof.
  induction l as [| c l IH]; intros line r Hl.
  - by rewrite append_nil, append_nil_r, splitlines_from_LF.
  - simpl in Hl. apply andb_true_iff in Hl as [Hc Hl].
    apply negb_true_iff in Hc.
    rewrite append_cons, (splitlines_from_char _ _ _ Hc), (IH _ _ Hl).
    by rewrite append_snoc_cons.
Qed.

Lemma splitlines_from_last l : ∀ line,
  one_line l = true →
  splitlines_from false line l
  = if decide (line +:+ l = "") then [] else [line +:+ l].
Proof.
  induction l as [| c l IH]; intros line Hl.
  - rewrite append_nil_r. reflexivity.
  - simpl in Hl. apply andb_true_iff in Hl as [Hc Hl].
    apply negb_true_iff in Hc.
    rewrite (splitlines_from_char _ _ _ Hc), (IH _ Hl).
    by rewrite append_snoc_cons.
Qed.

(** X14. No domain read from the file contains a line boundary: LF, CR and
    the other boundaries of [splitlines] never reach the detector. *)
Theorem read_domain_list_has_no_line_breaks (text : string) :
  Forall (λ domain, one_line domain = true) (read_domain_list_from_file text).
Proof. by apply splitlines_from_one_line. Qed.

(** X15. A text made of lines without line boundary, each closed by LF and
    followed by a last line that is not closed, is read back as these
    lines; the last line is dropped exactly when it is empty, so a final LF
    adds no empty domain, while an empty line in the middle is read as an
    empty domain. *)
Theorem read_domain_list_round_trip (lines : list string) (last : string) :
  Forall (λ l, one_line l = true) lines → one_line last = true →
  read_domain_list_from_file (unlines lines +:+ last)
  = lines ++ (if decide (last = "") then [] else [last]).
Proof.
  unfold read_domain_list_from_file, splitlines.
  intros Hlines Hlast. induction Hlines as [| l rest Hl _ IH]; simpl.
  - rewrite append_nil. by rewrite (splitlines_from_last _ "" Hlast).
  - rewrite append_assoc, append_cons.
    by rewrite (splitlines_from_line _ "" _ Hl), IH.
Qed.

Lemma read_domain_list_round_trip_witness :
  read_domain_list_from_file
    (unlines ["paypal-login.appspot.com"; ""; "ciscomail.com"] +:+ "")
  = ["paypal-login.appspot.com"; ""; "ciscomail.com"].
Proof.
  apply (read_domain_list_round_trip
           ["paypal-login.appspot.com"; ""; "ciscomail.com"] "").
  - repeat constructor.
  - reflexivity.
Defined.

(** ** The script *)

(** X16. What the script prints does not depend on the domains file: the
    lures found in it are dropped, and the printed notifications are those
    of the four test domains, with an entry for "paypal-login.appspot.com"
    and one for "ciscomail.com"; the notifier is left holding the test
    domains. *)
Theorem main_ignores_domains_file fuel
    (subscription_entries graph_entries : list (pydict string))
    (text text' : string) :
  fst <$> main fuel subscription_entries graph_entries text
  = fst <$> main fuel subscription_entries graph_entries text' ∧
  (∀ out n, main fuel subscription_entries graph_entries text = Some (out, n) →
     TARGET_DOMAINS n = test_domains ∧
     keys out = ["paypal-login.appspot.com"; "ciscomail.com"]).
Proof.
  unfold main, init.
  destruct (load_user_subscriptions subscription_entries) as [subs |]; [| done].
  destruct (load_user_to_manager_map graph_entries) as [h |]; [| done].
  destruct (_build_user_reports_chain_map fuel h) as [chain |]; [| done].
  split; [reflexivity |].
  intros out n [= <- <-]. split; [reflexivity |].
  vm_compute. reflexivity.
Qed.

Lemma main_ignores_domains_file_witness :
  ∃ out n,
    main 3 [[("id", "A"); ("term", "cisco")]]
         [[("id", "B"); ("reports_to", "A")]] "apple.com" = Some (out, n) ∧
    TARGET_DOMAINS n = test_domains ∧
    keys out = ["paypal-login.appspot.com"; "ciscomail.com"].
Proof.
  destruct (main 3 [[("id", "A"); ("term", "cisco")]]
              [[("id", "B"); ("reports_to", "A")]] "apple.com")
    as [[out n] |] eqn:Hmain; [| by vm_compute in Hmain].
  exists out, n. split; [reflexivity |].
  exact (proj2 (main_ignores_domains_file 3 _ _ "apple.com" "") out n Hmain).
Defined.
